(** * blist: a version-ordered in-memory list on top of a btree

    Shallow embedding of [list.go] and [item.go].  Go pointers are
    addresses into an explicit heap, so that the identity of an [*Item]
    and its back-reference to the owning [*List] can be stated.  The
    [sync.RWMutex] is not modelled: every operation holds the lock of the
    one list it touches for its whole duration, so a sequential reading
    of each method is what a caller observes. *)

From Stdlib Require Import ZArith Lia.
From Stdlib.Strings Require Import Byte.
From stdpp Require Import base option list sorting.

(** ** Addresses *)

(** [*Item] *)
Abbreviation ptr := nat.
(** [*List] *)
Abbreviation lref := nat.

(** ** item.go *)

(** [type Item struct { ver int64; val []byte; list *List }].  Versions
    are only ever compared, never computed with, so [ver] is an integer
    without a bound.  The field [list] is spelled [list_] here. *)
Record Item := mkItem {
  ver : Z;
  val : list byte;
  list_ : option lref
}.

(** [func (i *Item) Less(than btree.Item) bool] *)
Definition Less (i than : Item) : bool := (ver i <? ver than)%Z.

(** ** The btree package *)

(** The package github.com/google/btree, which list.go and item.go
    import, is not among the sources.  The spec describes the tree as an
    ordered collection of entries, ordered strictly by version ascending,
    to which key comparison and positional search are delegated.  The
    tree is modelled by the ascending sequence of the item references it
    holds.  Items are only ever compared through [less], and two items
    neither of which is less than the other count as equal.  [P] is the
    type of the references the tree stores, [I] what [less] looks at. *)
Module btree.
Section BTree.
Context {P I : Type} (deref : P → I) (less : I → I → bool).

(** Modelled from the spec: [btree.New], missing from the sources; the
    empty tree. *)
Definition New : list P := [].

(** Modelled from the spec: [BTree.ReplaceOrInsert], missing from the
    sources.  Adds [item] at its place in the order; an item of the tree
    equal to it is taken out and returned. *)
Fixpoint ReplaceOrInsert (t : list P) (item : P) : list P * option P :=
  match t with
  | [] => ([item], None)
  | x :: t' =>
      if less (deref item) (deref x) then (item :: x :: t', None)
      else if less (deref x) (deref item) then
        let '(t'', out) := ReplaceOrInsert t' item in (x :: t'', out)
      else (item :: t', Some x)
  end.

(** Modelled from the spec: [BTree.Delete], missing from the sources.
    Takes out the item of the tree equal to [item] and returns it, or
    returns nil when there is none. *)
Fixpoint Delete (t : list P) (item : I) : list P * option P :=
  match t with
  | [] => ([], None)
  | x :: t' =>
      if less item (deref x) then (x :: t', None)
      else if less (deref x) item then
        let '(t'', out) := Delete t' item in (x :: t'', out)
      else (t', Some x)
  end.

(** Modelled from the spec: [BTree.Get], missing from the sources.  The
    item of the tree equal to [key], or nil. *)
Fixpoint Get (t : list P) (key : I) : option P :=
  match t with
  | [] => None
  | x :: t' =>
      if less key (deref x) then None
      else if less (deref x) key then Get t' key
      else Some x
  end.

(** Modelled from the spec: [BTree.Min], [BTree.Max] and [BTree.Len],
    missing from the sources: the first item, the last item, the number
    of items. *)
Definition Min (t : list P) : option P := head t.
Definition Max (t : list P) : option P := last t.
Definition Len (t : list P) : nat := length t.

(** Modelled from the spec: the iteration behind [Ascend],
    [AscendGreaterOrEqual] and [DescendLessOrEqual], missing from the
    sources.  It calls [iterator] on the items [xs] in range, in turn,
    until [iterator] returns false.  [St] is the state the Go closure
    captures and updates.  This is what the package does for an iterator
    that leaves the tree alone, and on a tree that is one leaf (see
    [one_leaf]); it says nothing of an iterator that changes a tree of
    several nodes while the tree is being walked. *)
Fixpoint iterate {St : Type} (xs : list P)
    (iterator : P → St → bool * St) (s : St) : St :=
  match xs with
  | [] => s
  | x :: xs' =>
      let '(continue, s') := iterator x s in
      if continue then iterate xs' iterator s' else s'
  end.

(** Modelled from the spec: the trees of this package are made by
    [btree.New(2)].  Such a tree keeps one to three items in a node, and
    a node with children has at least two of them, none empty: a tree
    of at most two items is a single leaf.  There a descending
    iteration is a loop down the leaf's own slice, and deleting the item
    just visited moves only the items the loop has already passed, so
    the loop goes on with the items in range below it. *)
Definition one_leaf (t : list P) : bool := length t <=? 2.

(** Modelled from the spec: [BTree.Ascend], every item from the first to
    the last. *)
Definition Ascend {St : Type} (t : list P)
    (iterator : P → St → bool * St) (s : St) : St :=
  iterate t iterator s.

(** Modelled from the spec: [BTree.AscendGreaterOrEqual], every item
    from [pivot] up to the last. *)
Definition AscendGreaterOrEqual {St : Type} (t : list P) (pivot : I)
    (iterator : P → St → bool * St) (s : St) : St :=
  iterate (filter (λ x, ¬ less (deref x) pivot) t) iterator s.

(** Modelled from the spec: [BTree.DescendLessOrEqual], every item from
    [pivot] down to the first. *)
Definition DescendLessOrEqual {St : Type} (t : list P) (pivot : I)
    (iterator : P → St → bool * St) (s : St) : St :=
  iterate (reverse (filter (λ x, ¬ less pivot (deref x)) t)) iterator s.
End BTree.
End btree.

(** ** list.go *)

(** [type List struct { tree *btree.BTree; lock sync.RWMutex }] *)
Record List := mkList { tree : list ptr }.

(** [type Find int8] *)
Inductive Find := Exact | Prev | Next | Upto | Nearest.

(** The store: the items and the lists allocated so far, by address. *)
Record Heap := mkHeap {
  items : list Item;
  lists : list List
}.

Definition empty_heap : Heap := mkHeap [] [].

(** [*p] for an item pointer.  Pointers handed out by this package are
    always allocated; the default only makes the function total. *)
Definition deref (h : Heap) (p : ptr) : Item :=
  default (mkItem 0 [] None) (items h !! p).

(** [l.tree] *)
Definition tree_of (h : Heap) (l : lref) : list ptr :=
  from_option tree [] (lists h !! l).

(** [l.tree = t] *)
Definition set_tree (h : Heap) (l : lref) (t : list ptr) : Heap :=
  mkHeap (items h) (<[l := mkList t]> (lists h)).

(** [i.list = o] *)
Definition set_list_ (h : Heap) (i : ptr) (o : option lref) : Heap :=
  mkHeap (<[i := mkItem (ver (deref h i)) (val (deref h i)) o]> (items h))
         (lists h).

(** [i.val = b] *)
Definition set_val (h : Heap) (i : ptr) (b : list byte) : Heap :=
  mkHeap (<[i := mkItem (ver (deref h i)) b (list_ (deref h i))]> (items h))
         (lists h).

(** [&Item{ver: ver}]: the pivot of a search.  The tree never keeps it,
    so it is passed by value instead of being allocated. *)
Definition pivot (ver : Z) : Item := mkItem ver [] None.

(** [func New() *List] *)
Definition New (h : Heap) : Heap * lref :=
  (mkHeap (items h) (lists h ++ [mkList btree.New]), length (lists h)).

(** [func (l *List) Clr()] *)
Definition Clr (h : Heap) (l : lref) : Heap := set_tree h l btree.New.

(** [func (l *List) Put(ver int64, val []byte) *Item] *)
Definition Put (h : Heap) (l : lref) (ver : Z) (val : list byte)
    : Heap * ptr :=
  let i := length (items h) in
  let h1 := mkHeap (items h ++ [mkItem ver val (Some l)]) (lists h) in
  (set_tree h1 l
     (fst (btree.ReplaceOrInsert (deref h1) Less (tree_of h1 l) i)), i).

(** [func (l *List) find(ver int64, what Find) (i *Item)].  The case
    [Nearest] calls [l.find] again; [depth] bounds the nesting of these
    calls. *)
Fixpoint find_at (depth : nat) (h : Heap) (l : lref) (ver0 : Z)
    (what : Find) : option ptr :=
  match what with
  | Prev =>
      btree.DescendLessOrEqual (deref h) Less (tree_of h l) (pivot ver0)
        (λ v i, if bool_decide (ver (deref h v) ≠ ver0)
                then (false, Some v) else (true, i)) None
  | Next =>
      btree.AscendGreaterOrEqual (deref h) Less (tree_of h l) (pivot ver0)
        (λ v i, if bool_decide (ver (deref h v) ≠ ver0)
                then (false, Some v) else (true, i)) None
  | Upto =>
      btree.DescendLessOrEqual (deref h) Less (tree_of h l) (pivot ver0)
        (λ v _, (false, Some v)) None
  | Exact =>
      match btree.Get (deref h) Less (tree_of h l) (pivot ver0) with
      | Some v => Some v
      | None => None
      end
  | Nearest =>
      match depth with
      | O => None
      | S depth' =>
          match find_at depth' h l ver0 Upto with
          | Some i => Some i
          | None => find_at depth' h l ver0 Next
          end
      end
  end.

(** The nested calls are for [Upto] and [Next], which call nothing:
    one level of nesting is all that [find] ever uses. *)
Definition find (h : Heap) (l : lref) (ver0 : Z) (what : Find)
    : option ptr :=
  find_at 1 h l ver0 what.

(** [func (l *List) Del(ver int64, meth Find) *Item] *)
Definition Del (h : Heap) (l : lref) (ver0 : Z) (meth : Find)
    : Heap * option ptr :=
  match find h l ver0 meth with
  | Some i =>
      let h1 :=
        set_tree h l
          (fst (btree.Delete (deref h) Less (tree_of h l) (deref h i))) in
      (set_list_ h1 i None, Some i)
  | None => (h, None)
  end.

(** What the model can say of a call: what it returns, or that this is
    not settled by the contents of the tree.  [Unsettled] stands for
    everything the program may then do: return with fewer entries
    removed than it was asked to visit, or stop with a run-time panic. *)
Inductive Outcome (A : Type) : Type :=
  | Returns (a : A)
  | Unsettled.
Arguments Returns {A} a.
Arguments Unsettled {A}.

(** [func (l *List) Exp(ver int64, meth Find) *Item].  The iterator
    deletes the item it is given from [l.tree], the tree that
    [DescendLessOrEqual] is walking, and asks to go on.  On a tree that
    is one leaf the walk then goes on with the items in range.  On a
    tree of several nodes [Delete] moves items between the nodes the
    walk is standing on; which entries are still visited, and whether
    the walk stops with an index out of range, depends on how the items
    are laid out in nodes, which the sequence of items does not tell:
    the outcome is [Unsettled]. *)
Definition Exp (h : Heap) (l : lref) (ver0 : Z) (meth : Find)
    : Outcome (Heap * option ptr) :=
  match find h l ver0 meth with
  | Some i =>
      if btree.one_leaf (tree_of h l) then
        Returns
          (btree.DescendLessOrEqual (deref h) Less (tree_of h l) (deref h i)
             (λ v h',
                (true,
                 set_tree h' l
                   (fst (btree.Delete (deref h') Less (tree_of h' l)
                           (deref h' v)))))
             h,
           Some i)
      else Unsettled
  | None => Returns (h, None)
  end.

(** [func (l *List) Get(ver int64, meth Find) *Item] *)
Definition Get (h : Heap) (l : lref) (ver0 : Z) (meth : Find)
    : option ptr :=
  find h l ver0 meth.

(** [func (l *List) Len() int] *)
Definition Len (h : Heap) (l : lref) : nat := btree.Len (tree_of h l).

(** [func (l *List) Min() *Item] *)
Definition Min (h : Heap) (l : lref) : option ptr :=
  match btree.Min (tree_of h l) with
  | Some i => Some i
  | None => None
  end.

(** [func (l *List) Max() *Item] *)
Definition Max (h : Heap) (l : lref) : option ptr :=
  match btree.Max (tree_of h l) with
  | Some i => Some i
  | None => None
  end.

(** [func (l *List) Walk(fn)], where [fn] takes an [*Item] and returns
    a [bool].  [St] is whatever state the visitor closes over. *)
Definition Walk {St : Type} (h : Heap) (l : lref)
    (fn : ptr → St → bool * St) (s : St) : St :=
  btree.Ascend (tree_of h l)
    (λ i s, let '(r, s') := fn i s in (negb r, s')) s.

(** ** item.go, the methods *)

(** [func (i *Item) Ver()] *)
Definition Ver (h : Heap) (i : ptr) : Z := ver (deref h i).

(** [func (i *Item) Val() []byte] *)
Definition Val (h : Heap) (i : ptr) : list byte := val (deref h i).

(** [func (i *Item) Set(val []byte) *Item] *)
Definition Item_Set (h : Heap) (i : ptr) (b : list byte) : Heap * ptr :=
  (set_val h i b, i).

(** [func (i *Item) Del() *Item] *)
Definition Item_Del (h : Heap) (i : ptr) : Heap * ptr :=
  match list_ (deref h i) with
  | Some l =>
      let h1 :=
        set_tree h l
          (fst (btree.Delete (deref h) Less (tree_of h l) (deref h i))) in
      (set_list_ h1 i None, i)
  | None => (h, i)
  end.

(** [func (i *Item) Prev() *Item] *)
Definition Item_Prev (h : Heap) (i : ptr) : option ptr :=
  match list_ (deref h i) with
  | Some l => find h l (ver (deref h i)) Prev
  | None => None
  end.

(** [func (i *Item) Next() *Item] *)
Definition Item_Next (h : Heap) (i : ptr) : option ptr :=
  match list_ (deref h i) with
  | Some l => find h l (ver (deref h i)) Next
  | None => None
  end.

(** ** Well-formed stores *)

(** The order the tree keeps its items in. *)
Definition ver_lt (h : Heap) (p q : ptr) : Prop :=
  (ver (deref h p) < ver (deref h q))%Z.

(** Every tree holds allocated items only, in strictly ascending version
    order. *)
Definition wf (h : Heap) : Prop :=
  Forall (λ L, Forall (λ p, p < length (items h)) (tree L)
               ∧ StronglySorted (ver_lt h) (tree L)) (lists h).

#[global] Instance ver_lt_dec h p q : Decision (ver_lt h p q).
Proof. unfold ver_lt. apply _. Defined.

#[global] Instance wf_dec h : Decision (wf h).
Proof. unfold wf. apply _. Defined.

(** Every entry a tree holds names the list of that tree as its owner. *)
Definition owned (h : Heap) : Prop :=
  Forall (λ lL, Forall (λ p, list_ (deref h p) = Some lL.1) (tree lL.2))
         (imap (λ l L, (l, L)) (lists h)).

#[global] Instance owned_dec h : Decision (owned h).
Proof. unfold owned. apply _. Defined.

(** The versions of a sequence of items. *)
Definition vers (h : Heap) (ps : list ptr) : list Z :=
  (λ p, ver (deref h p)) <$> ps.

(** A visitor instrumented to record each call and its answer. *)
Definition traced {St : Type} (fn : ptr → St → bool * St)
    : ptr → St * list (ptr * bool) → bool * (St * list (ptr * bool)) :=
  λ i '(s, log), let '(r, s') := fn i s in (r, (s', log ++ [(i, r)])).

(** A run of [Put] calls on one list. *)
Definition Puts (h : Heap) (l : lref) (kvs : list (Z * list byte)) : Heap :=
  foldl (λ h kv, fst (Put h l kv.1 kv.2)) h kvs.

(** A call of one of the methods that change the store.  [Exp] is not
    among them: its outcome is not always settled. *)
Inductive Call :=
  | CallNew
  | CallClr (l : lref)
  | CallPut (l : lref) (ver : Z) (val : list byte)
  | CallDel (l : lref) (ver : Z) (meth : Find)
  | CallItemSet (i : ptr) (val : list byte)
  | CallItemDel (i : ptr).

Definition run_call (h : Heap) (c : Call) : Heap :=
  match c with
  | CallNew => (New h).1
  | CallClr l => Clr h l
  | CallPut l ver val => (Put h l ver val).1
  | CallDel l ver meth => (Del h l ver meth).1
  | CallItemSet i val => (Item_Set h i val).1
  | CallItemDel i => (Item_Del h i).1
  end.

(** The store a program of calls leaves, starting with nothing
    allocated. *)
Definition run (cs : list Call) : Heap := foldl run_call empty_heap cs.

(** A small store used as running example: one list holding versions
    10, 20 and 30. *)
Definition ex_heap : Heap :=
  let '(h0, l) := New empty_heap in
  Puts h0 l [(20%Z, [x02]); (10%Z, [x01]); (30%Z, [x03])].


(** * Facts about the tree model *)

Lemma Less_lt (a b : Item) : Less a b ↔ (ver a < ver b)%Z.
Proof. unfold Less. rewrite Is_true_true. apply Z.ltb_lt. Qed.

Lemma filter_all {A} (P : A → Prop) `{!∀ x, Decision (P x)} (l : list A) :
  Forall P l → filter P l = l.
Proof.
  induction 1 as [|x l Hx _ IH]; [done|].
  by rewrite filter_cons_True, IH.
Qed.

Lemma filter_none {A} (P : A → Prop) `{!∀ x, Decision (P x)} (l : list A) :
  Forall (λ x, ¬ P x) l → filter P l = [].
Proof.
  induction 1 as [|x l Hx _ IH]; [done|].
  by rewrite filter_cons_False.
Qed.

Lemma filter_ext_elem {A} (P Q : A → Prop)
    `{!∀ x, Decision (P x), !∀ x, Decision (Q x)} (l : list A) :
  (∀ x, x ∈ l → P x ↔ Q x) → filter P l = filter Q l.
Proof.
  induction l as [|x l IH]; intros HPQ; [done|].
  rewrite !filter_cons.
  rewrite IH by (intros y Hy; apply HPQ; by right).
  destruct (decide (P x)) as [HP|HP], (decide (Q x)) as [HQ|HQ]; [done| | |done].
  - destruct HQ. apply HPQ; [by left|done].
  - destruct HP. apply HPQ; [by left|done].
Qed.

Lemma sorted_ext (R R' : relation ptr) (t : list ptr) :
  (∀ x y, x ∈ t → y ∈ t → R x y → R' x y) →
  StronglySorted R t → StronglySorted R' t.
Proof.
  intros HR Hs. induction Hs as [|x t Hs IH Hx]; [constructor|].
  constructor.
  - apply IH. intros y z Hy Hz. apply HR; by right.
  - rewrite Forall_forall in Hx |- *. intros y Hy.
    apply HR; [by left|by right|by apply Hx].
Qed.

Section tree_facts.
Context (d : ptr → Item).

Local Abbreviation kv p := (ver (d p)).
Local Abbreviation before := (λ p q : ptr, (ver (d p) < ver (d q))%Z).
Local Abbreviation sorted := (StronglySorted before).

Lemma sorted_filter (P : ptr → Prop) `{!∀ x, Decision (P x)} t :
  sorted t → sorted (filter P t).
Proof.
  induction 1 as [|x t _ IH Hx]; [constructor|].
  rewrite filter_cons. destruct (decide (P x)); [|done].
  constructor; [done|].
  rewrite Forall_forall in Hx |- *.
  intros y [_ Hy]%list_elem_of_filter. by apply Hx.
Qed.

Lemma sorted_NoDup_vers t : sorted t → NoDup ((λ p, kv p) <$> t).
Proof.
  induction 1 as [|x t _ IH Hx]; csimpl; constructor; [|done].
  intros (y & Hxy & Hy)%list_elem_of_fmap.
  rewrite Forall_forall in Hx. specialize (Hx y Hy). simpl in Hx. lia.
Qed.

Lemma sorted_same_version t p q :
  sorted t → p ∈ t → q ∈ t → kv p = kv q → p = q.
Proof.
  induction 1 as [|x t _ IH Hx]; [by intros ?%elem_of_nil|].
  rewrite Forall_forall in Hx.
  intros [->|Hp]%elem_of_cons [->|Hq]%elem_of_cons Hk; [done| | |by apply IH].
  - specialize (Hx q Hq). simpl in Hx. lia.
  - specialize (Hx p Hp). simpl in Hx. lia.
Qed.

(** [Delete] takes out the item of the same version, if any. *)
Lemma Delete_filter t it :
  sorted t →
  (btree.Delete d Less t it).1 = filter (λ x, kv x ≠ ver it) t.
Proof.
  induction 1 as [|x t Hs IH Hx]; [done|]. simpl.
  rewrite Forall_forall in Hx.
  destruct (Less it (d x)) eqn:E1.
  { apply Is_true_true, Less_lt in E1. simpl. symmetry.
    apply filter_all. constructor; [lia|].
    apply Forall_forall. intros y Hy. specialize (Hx y Hy).
    simpl in Hx. lia. }
  apply Is_true_false, (not_iff_compat (Less_lt _ _)) in E1.
  destruct (Less (d x) it) eqn:E2.
  { apply Is_true_true, Less_lt in E2.
    destruct (btree.Delete d Less t it) as [t'' out]. simpl in *.
    rewrite filter_cons_True by lia. by rewrite IH. }
  apply Is_true_false, (not_iff_compat (Less_lt _ _)) in E2. simpl.
  rewrite filter_cons_False by lia. symmetry.
  apply filter_all, Forall_forall. intros y Hy. specialize (Hx y Hy).
  simpl in Hx. lia.
Qed.

(** [Get] finds the item of the same version, if any. *)
Lemma Get_Some t k p :
  sorted t →
  btree.Get d Less t k = Some p ↔ p ∈ t ∧ kv p = ver k.
Proof.
  induction 1 as [|x t Hs IH Hx].
  { simpl. split; [done|]. by intros [?%elem_of_nil _]. }
  simpl. rewrite Forall_forall in Hx. rewrite elem_of_cons.
  destruct (Less k (d x)) eqn:E1.
  { apply Is_true_true, Less_lt in E1. split; [done|].
    intros [[->|Hp] Hk]; [lia|]. specialize (Hx p Hp). simpl in Hx. lia. }
  apply Is_true_false, (not_iff_compat (Less_lt _ _)) in E1.
  destruct (Less (d x) k) eqn:E2.
  { apply Is_true_true, Less_lt in E2. rewrite IH.
    split; [by intros [??]; split; [right|]|].
    intros [[->|Hp] Hk]; [lia|done]. }
  apply Is_true_false, (not_iff_compat (Less_lt _ _)) in E2.
  split.
  - intros [= ->]. split; [by left|lia].
  - intros [[->|Hp] Hk]; [done|]. specialize (Hx p Hp). simpl in Hx. lia.
Qed.

Lemma Get_None t k :
  sorted t →
  btree.Get d Less t k = None ↔ ∀ p, p ∈ t → kv p ≠ ver k.
Proof.
  intros Hs. split.
  - intros HN p Hp Hk.
    assert (btree.Get d Less t k = Some p) as HS by by apply Get_Some.
    congruence.
  - intros HA. destruct (btree.Get d Less t k) as [p|] eqn:E; [|done].
    apply Get_Some in E as [Hp Hk]; [|done]. by destruct (HA p Hp).
Qed.

(** [ReplaceOrInsert] puts the item where its version belongs and drops
    the item of the same version, if any. *)
Lemma ReplaceOrInsert_split t i :
  sorted t →
  (btree.ReplaceOrInsert d Less t i).1
  = filter (λ x, (kv x < kv i)%Z) t ++ i :: filter (λ x, (kv i < kv x)%Z) t.
Proof.
  induction 1 as [|x t Hs IH Hx]; [done|]. simpl.
  rewrite Forall_forall in Hx.
  destruct (Less (d i) (d x)) eqn:E1.
  { apply Is_true_true, Less_lt in E1. simpl.
    rewrite filter_cons_False, (filter_cons_True _ x) by lia.
    rewrite filter_none, filter_all; [done| |];
      apply Forall_forall; intros y Hy; specialize (Hx y Hy); simpl in Hx; lia. }
  apply Is_true_false, (not_iff_compat (Less_lt _ _)) in E1.
  destruct (Less (d x) (d i)) eqn:E2.
  { apply Is_true_true, Less_lt in E2.
    destruct (btree.ReplaceOrInsert d Less t i) as [t'' out]. simpl in *.
    rewrite filter_cons_True, (filter_cons_False _ x) by lia.
    by rewrite IH. }
  apply Is_true_false, (not_iff_compat (Less_lt _ _)) in E2. simpl.
  rewrite !filter_cons_False by lia.
  rewrite filter_none, filter_all; [done| |];
    apply Forall_forall; intros y Hy; specialize (Hx y Hy); simpl in Hx; lia.
Qed.

Lemma ReplaceOrInsert_sorted t i :
  sorted t → sorted (btree.ReplaceOrInsert d Less t i).1.
Proof.
  intros Hs. rewrite ReplaceOrInsert_split by done.
  apply StronglySorted_app. split_and!.
  - intros x y [Hx _]%list_elem_of_filter [->|[Hy _]%list_elem_of_filter]%elem_of_cons; lia.
  - by apply sorted_filter.
  - constructor; [by apply sorted_filter|].
    apply Forall_forall. by intros y [Hy _]%list_elem_of_filter.
Qed.

Lemma ReplaceOrInsert_elem t i x :
  sorted t →
  x ∈ (btree.ReplaceOrInsert d Less t i).1 ↔ x = i ∨ x ∈ t ∧ kv x ≠ kv i.
Proof.
  intros Hs. rewrite ReplaceOrInsert_split by done.
  rewrite elem_of_app, elem_of_cons, !list_elem_of_filter.
  split.
  - intros [[? ?]|[?|[? ?]]]; [right; split; [done|lia]|by left|].
    right; split; [done|lia].
  - intros [->|[Hx Hne]]; [by right; left|].
    destruct (Z.lt_total (kv x) (kv i)) as [?|[?|?]]; [by left|done|].
    by right; right.
Qed.

Lemma ReplaceOrInsert_out t i :
  (btree.ReplaceOrInsert d Less t i).2 = btree.Get d Less t (d i).
Proof.
  induction t as [|x t IH]; [done|]. simpl.
  destruct (Less (d i) (d x)); [done|].
  destruct (Less (d x) (d i)); [|done].
  by destruct (btree.ReplaceOrInsert d Less t i).
Qed.

Lemma ReplaceOrInsert_length t i :
  length (btree.ReplaceOrInsert d Less t i).1
  = match btree.Get d Less t (d i) with
    | Some _ => length t
    | None => S (length t)
    end.
Proof.
  induction t as [|x t IH]; [done|]. simpl.
  destruct (Less (d i) (d x)); [done|].
  destruct (Less (d x) (d i)); [|done].
  destruct (btree.ReplaceOrInsert d Less t i) as [t'' out]. simpl in *.
  rewrite IH. by destruct (btree.Get d Less t (d i)).
Qed.

(** In an ascending tree the last item of a range is its greatest and
    the first one its smallest. *)
Lemma sorted_last_greatest (Q : ptr → Prop) `{!∀ x, Decision (Q x)} t p :
  sorted t → last (filter Q t) = Some p →
  p ∈ t ∧ Q p ∧ ∀ q, q ∈ t → Q q → (kv q <= kv p)%Z.
Proof.
  intros Hs [t' Ht']%last_Some.
  assert (p ∈ filter Q t) as [HQ Hp]%list_elem_of_filter
    by (rewrite Ht'; apply elem_of_app; right; by left).
  split_and!; [done..|]. intros q Hq HQq.
  assert (q ∈ filter Q t) as Hin by by apply list_elem_of_filter.
  apply (sorted_filter Q) in Hs. rewrite Ht' in Hs, Hin.
  apply elem_of_app in Hin as [Hin| ->%list_elem_of_singleton]; [|lia].
  apply Z.lt_le_incl.
  apply (StronglySorted_app_1_elem_of _ _ _ q p Hs); [done|by left].
Qed.

Lemma sorted_head_smallest (Q : ptr → Prop) `{!∀ x, Decision (Q x)} t p :
  sorted t → head (filter Q t) = Some p →
  p ∈ t ∧ Q p ∧ ∀ q, q ∈ t → Q q → (kv p <= kv q)%Z.
Proof.
  intros Hs [t' Ht']%head_Some.
  assert (p ∈ filter Q t) as [HQ Hp]%list_elem_of_filter
    by (rewrite Ht'; by left).
  split_and!; [done..|]. intros q Hq HQq.
  assert (q ∈ filter Q t) as Hin by by apply list_elem_of_filter.
  apply (sorted_filter Q) in Hs. rewrite Ht' in Hs, Hin.
  apply StronglySorted_cons in Hs as [Hall _].
  apply elem_of_cons in Hin as [->|Hin]; [lia|].
  rewrite Forall_forall in Hall. specialize (Hall q Hin). simpl in Hall. lia.
Qed.

Lemma last_filter_None (Q : ptr → Prop) `{!∀ x, Decision (Q x)}
    (t : list ptr) :
  last (filter Q t) = None → ∀ q, q ∈ t → ¬ Q q.
Proof.
  intros HN%last_None q Hq HQ. by apply (filter_nil_not_elem_of Q t q).
Qed.

Lemma head_filter_None (Q : ptr → Prop) `{!∀ x, Decision (Q x)}
    (t : list ptr) :
  head (filter Q t) = None → ∀ q, q ∈ t → ¬ Q q.
Proof.
  intros HN%head_None q Hq HQ. by apply (filter_nil_not_elem_of Q t q).
Qed.
End tree_facts.

(** ** What the iterators compute *)

Lemma iterate_first {P : Type} (xs : list P) :
  btree.iterate xs (λ v _, (false, Some v)) None = head xs.
Proof. by destruct xs. Qed.

Lemma iterate_first_other {P : Type} (f : P → Z) (v0 : Z) (xs : list P) :
  btree.iterate xs
    (λ v i, if bool_decide (f v ≠ v0) then (false, Some v) else (true, i))
    None
  = head (filter (λ v, f v ≠ v0) xs).
Proof.
  induction xs as [|x xs IH]; [done|]. simpl.
  rewrite filter_cons. case_bool_decide; by destruct (decide _).
Qed.

Lemma iterate_traced {A : Type} (fn : ptr → A → bool * A)
    (xs : list ptr) (s : A) (log0 : list (ptr * bool)) :
  ∃ (calls : list (ptr * bool)) (rest : list ptr),
    btree.iterate xs
      (λ i s, let '(r, s') := traced fn i s in (negb r, s')) (s, log0)
    = (btree.iterate xs (λ i s, let '(r, s') := fn i s in (negb r, s')) s,
       log0 ++ calls)
    ∧ xs = calls.*1 ++ rest
    ∧ (∀ k p r, calls !! k = Some (p, r) → S k < length calls → r = false)
    ∧ (rest ≠ [] → ∃ p, last calls = Some (p, true)).
Proof.
  revert s log0. induction xs as [|x xs IH]; intros s log0.
  { exists [], []. rewrite app_nil_r. split_and!; [done..| |done].
    intros k p r Hk. by rewrite lookup_nil in Hk. }
  simpl. destruct (fn x s) as [r s1] eqn:Efn. destruct r; simpl.
  - exists [(x, true)], xs. split_and!; [done..| |by eexists].
    intros k p r _ Hk. simpl in Hk. lia.
  - destruct (IH s1 (log0 ++ [(x, false)])) as (calls & rest & -> & -> & Hf & Hl).
    exists ((x, false) :: calls), rest. split_and!.
    + by rewrite <- app_assoc.
    + done.
    + intros [|k] p r Hk Hlen; simpl in *; [by inversion Hk|].
      apply (Hf k p r Hk). lia.
    + intros Hrest. destruct (Hl Hrest) as [p Hp]. exists p.
      rewrite last_cons. by rewrite Hp.
Qed.

Lemma iterate_items {P : Type} (xs : list P) (f : P → Heap → bool * Heap)
    (h : Heap) :
  (∀ x h', items (f x h').2 = items h') →
  items (btree.iterate xs f h) = items h.
Proof.
  intros Hf. revert h. induction xs as [|x xs IH]; intros h; [done|].
  simpl. specialize (Hf x h). destruct (f x h) as [c h']. simpl in Hf.
  destruct c; [by rewrite IH|done].
Qed.

(** * Facts about the store *)

Lemma wf_sorted h l : wf h → StronglySorted (ver_lt h) (tree_of h l).
Proof.
  unfold wf, tree_of. intros Hwf.
  destruct (lists h !! l) as [L|] eqn:E; [|constructor].
  rewrite Forall_forall in Hwf.
  apply list_elem_of_lookup_2 in E. by apply Hwf in E as [_ ?].
Qed.

Lemma wf_allocated h l p : wf h → p ∈ tree_of h l → p < length (items h).
Proof.
  unfold wf, tree_of. intros Hwf.
  destruct (lists h !! l) as [L|] eqn:E; [|by intros ?%elem_of_nil].
  rewrite Forall_forall in Hwf.
  apply list_elem_of_lookup_2 in E. apply Hwf in E as [Hall _].
  rewrite Forall_forall in Hall. apply Hall.
Qed.

Lemma tree_of_set_tree h l t :
  l < length (lists h) → tree_of (set_tree h l t) l = t.
Proof.
  intros Hl. unfold tree_of, set_tree. simpl.
  by rewrite list_lookup_insert_eq.
Qed.

Lemma tree_of_set_tree_ne h l l' t :
  l ≠ l' → tree_of (set_tree h l t) l' = tree_of h l'.
Proof.
  intros Hl. unfold tree_of, set_tree. simpl.
  by rewrite list_lookup_insert_ne.
Qed.

Lemma tree_of_unallocated h l : length (lists h) ≤ l → tree_of h l = [].
Proof. intros Hl. unfold tree_of. by rewrite lookup_ge_None_2. Qed.

Lemma tree_of_elem_allocated h l p : p ∈ tree_of h l → l < length (lists h).
Proof.
  intros Hp. destruct (decide (l < length (lists h))) as [|Hge]; [done|].
  rewrite tree_of_unallocated in Hp by lia. by apply elem_of_nil in Hp.
Qed.

Lemma set_tree_id h l : l < length (lists h) → set_tree h l (tree_of h l) = h.
Proof.
  intros Hl. unfold set_tree, tree_of.
  destruct (lists h !! l) as [L|] eqn:HL.
  - destruct h as [its ls], L as [t]. simpl in *. f_equal.
    by apply list_insert_id.
  - apply lookup_ge_None in HL. lia.
Qed.

Lemma set_tree_set_tree h l t1 t2 :
  set_tree (set_tree h l t1) l t2 = set_tree h l t2.
Proof. unfold set_tree. simpl. by rewrite list_insert_insert_eq. Qed.

Lemma wf_set_tree h l t :
  wf h → Forall (λ p, p < length (items h)) t →
  StronglySorted (ver_lt h) t → wf (set_tree h l t).
Proof. intros Hwf Hall Hs. by apply Forall_insert. Qed.

(** Taking entries out of a tree keeps the store well formed. *)
Lemma wf_set_tree_filter h l (Q : ptr → Prop) `{!∀ x, Decision (Q x)} :
  wf h → wf (set_tree h l (filter Q (tree_of h l))).
Proof.
  intros Hwf. apply wf_set_tree; [done| |].
  - apply Forall_forall. intros p [_ Hp]%list_elem_of_filter.
    by eapply wf_allocated.
  - apply (sorted_filter (deref h)). by apply wf_sorted.
Qed.

Lemma Delete_tree h l it :
  wf h →
  (btree.Delete (deref h) Less (tree_of h l) it).1
  = filter (λ p, Ver h p ≠ ver it) (tree_of h l).
Proof. intros Hwf. apply (Delete_filter (deref h)). by apply wf_sorted. Qed.

Lemma sorted_vers h t :
  StronglySorted (ver_lt h) t → StronglySorted Z.lt (vers h t).
Proof. apply StronglySorted_fmap. by intros p q. Qed.

(** ** [find] as a search in the ascending sequence *)

(** Deeper nesting changes nothing. *)
Lemma find_at_depth d h l v what :
  find_at (S d) h l v what = find h l v what.
Proof. by destruct what, d. Qed.

Lemma find_Nearest h l v :
  find h l v Nearest
  = match find h l v Upto with
    | Some i => Some i
    | None => find h l v Next
    end.
Proof. done. Qed.

Lemma find_Exact h l v :
  find h l v Exact = btree.Get (deref h) Less (tree_of h l) (pivot v).
Proof. unfold find. simpl. by destruct (btree.Get _ _ _ _). Qed.

Lemma find_Upto h l v :
  find h l v Upto = last (filter (λ p, (Ver h p <= v)%Z) (tree_of h l)).
Proof.
  unfold find, find_at, btree.DescendLessOrEqual.
  rewrite iterate_first, head_reverse. f_equal.
  apply list_filter_iff. intros p. rewrite Less_lt. unfold Ver. simpl. lia.
Qed.

Lemma find_Prev h l v :
  find h l v Prev = last (filter (λ p, (Ver h p < v)%Z) (tree_of h l)).
Proof.
  unfold find, find_at, btree.DescendLessOrEqual.
  rewrite (iterate_first_other (λ p, ver (deref h p))).
  rewrite filter_reverse, head_reverse, list_filter_filter. f_equal.
  apply list_filter_iff. intros p. rewrite Less_lt. unfold Ver. simpl. lia.
Qed.

Lemma find_Next h l v :
  find h l v Next = head (filter (λ p, (v < Ver h p)%Z) (tree_of h l)).
Proof.
  unfold find, find_at, btree.AscendGreaterOrEqual.
  rewrite (iterate_first_other (λ p, ver (deref h p))).
  rewrite list_filter_filter. f_equal.
  apply list_filter_iff. intros p. rewrite Less_lt. unfold Ver. simpl. lia.
Qed.

Lemma find_elem h l v what p :
  wf h → find h l v what = Some p → p ∈ tree_of h l.
Proof.
  intros Hwf. pose proof (wf_sorted h l Hwf) as Hs.
  assert (∀ Q `{!∀ x, Decision (Q x)},
    last (filter Q (tree_of h l)) = Some p → p ∈ tree_of h l) as Hlast.
  { intros Q ? HQ. by apply (sorted_last_greatest (deref h)) in HQ as [? _]. }
  assert (∀ Q `{!∀ x, Decision (Q x)},
    head (filter Q (tree_of h l)) = Some p → p ∈ tree_of h l) as Hhead.
  { intros Q ? HQ. by apply (sorted_head_smallest (deref h)) in HQ as [? _]. }
  destruct what.
  - rewrite find_Exact. by intros [? _]%Get_Some.
  - rewrite find_Prev. apply Hlast.
  - rewrite find_Next. apply Hhead.
  - rewrite find_Upto. apply Hlast.
  - rewrite find_Nearest, find_Upto, find_Next.
    destruct (last _) eqn:E; [intros [= <-]; by eapply Hlast|apply Hhead].
Qed.

(** ** What each seek mode resolves to *)

Lemma find_Exact_spec h l v p :
  wf h → find h l v Exact = Some p ↔ p ∈ tree_of h l ∧ Ver h p = v.
Proof.
  intros Hwf. rewrite find_Exact.
  apply (Get_Some (deref h)). by apply wf_sorted.
Qed.

Lemma find_Exact_None h l v :
  wf h → find h l v Exact = None ↔ ∀ q, q ∈ tree_of h l → Ver h q ≠ v.
Proof.
  intros Hwf. rewrite find_Exact.
  apply (Get_None (deref h)). by apply wf_sorted.
Qed.

Lemma find_Prev_spec h l v :
  wf h →
  match find h l v Prev with
  | Some p =>
      p ∈ tree_of h l ∧ (Ver h p < v)%Z
      ∧ ∀ q, q ∈ tree_of h l → (Ver h q < v)%Z → (Ver h q <= Ver h p)%Z
  | None => ∀ q, q ∈ tree_of h l → ¬ (Ver h q < v)%Z
  end.
Proof.
  intros Hs%(wf_sorted h l). rewrite find_Prev. destruct (last _) eqn:E.
  - by apply (sorted_last_greatest (deref h)) in E.
  - exact (last_filter_None _ _ E).
Qed.

Lemma find_Next_spec h l v :
  wf h →
  match find h l v Next with
  | Some p =>
      p ∈ tree_of h l ∧ (v < Ver h p)%Z
      ∧ ∀ q, q ∈ tree_of h l → (v < Ver h q)%Z → (Ver h p <= Ver h q)%Z
  | None => ∀ q, q ∈ tree_of h l → ¬ (v < Ver h q)%Z
  end.
Proof.
  intros Hs%(wf_sorted h l). rewrite find_Next. destruct (head _) eqn:E.
  - by apply (sorted_head_smallest (deref h)) in E.
  - exact (head_filter_None _ _ E).
Qed.

Lemma find_Upto_spec h l v :
  wf h →
  match find h l v Upto with
  | Some p =>
      p ∈ tree_of h l ∧ (Ver h p <= v)%Z
      ∧ ∀ q, q ∈ tree_of h l → (Ver h q <= v)%Z → (Ver h q <= Ver h p)%Z
  | None => ∀ q, q ∈ tree_of h l → ¬ (Ver h q <= v)%Z
  end.
Proof.
  intros Hs%(wf_sorted h l). rewrite find_Upto. destruct (last _) eqn:E.
  - by apply (sorted_last_greatest (deref h)) in E.
  - exact (last_filter_None _ _ E).
Qed.

(** ** Allocation and [Put] *)

Lemma deref_alloc_old h it p :
  p < length (items h) →
  deref (mkHeap (items h ++ [it]) (lists h)) p = deref h p.
Proof. intros Hp. unfold deref. simpl. by rewrite lookup_app_l. Qed.

Lemma deref_alloc_new h it :
  deref (mkHeap (items h ++ [it]) (lists h)) (length (items h)) = it.
Proof. unfold deref. simpl. by rewrite list_lookup_middle. Qed.

Lemma Put_deref_old h l v b p :
  p < length (items h) → deref (Put h l v b).1 p = deref h p.
Proof. apply deref_alloc_old. Qed.

Lemma Put_deref_new h l v b :
  deref (Put h l v b).1 (Put h l v b).2 = mkItem v b (Some l).
Proof. apply deref_alloc_new. Qed.

Lemma Put_tree_other h l l' v b :
  l ≠ l' → tree_of (Put h l v b).1 l' = tree_of h l'.
Proof. intros Hl. unfold Put. simpl. by rewrite tree_of_set_tree_ne. Qed.

Lemma wf_alloc h it : wf h → wf (mkHeap (items h ++ [it]) (lists h)).
Proof.
  unfold wf. simpl. rewrite !Forall_forall. intros Hwf L HL.
  destruct (Hwf L HL) as [Hall Hs]. rewrite Forall_forall in Hall.
  split.
  - apply Forall_forall. intros p Hp. rewrite length_app. simpl.
    specialize (Hall p Hp). simpl in Hall. lia.
  - revert Hs. apply sorted_ext. intros x y Hx Hy. unfold ver_lt.
    by rewrite !deref_alloc_old by by apply Hall.
Qed.

(** Where [Put] leaves the tree: the new item sits between the entries
    below and the entries above its version; an entry of the same version
    is gone. *)
Lemma Put_tree_split h l v b :
  wf h → l < length (lists h) →
  tree_of (Put h l v b).1 l
  = filter (λ p, (Ver h p < v)%Z) (tree_of h l)
    ++ length (items h) :: filter (λ p, (v < Ver h p)%Z) (tree_of h l).
Proof.
  intros Hwf Hl. unfold Put. cbn [fst].
  set (it := mkItem v b (Some l)).
  set (h1 := mkHeap (items h ++ [it]) (lists h)).
  rewrite tree_of_set_tree by done.
  assert (wf h1) as Hwf1 by by apply wf_alloc.
  change (tree_of h1 l) with (tree_of h l).
  rewrite (ReplaceOrInsert_split (deref h1))
    by apply (wf_sorted h1 l Hwf1).
  assert (deref h1 (length (items h)) = it) as -> by apply deref_alloc_new.
  f_equal; [|f_equal]; apply filter_ext_elem; intros p Hp; unfold Ver, h1;
    by rewrite deref_alloc_old by by eapply wf_allocated.
Qed.

Lemma Put_wf h l v b : wf h → wf (Put h l v b).1.
Proof.
  intros Hwf. unfold Put. cbn [fst].
  set (it := mkItem v b (Some l)).
  set (h1 := mkHeap (items h ++ [it]) (lists h)).
  assert (wf h1) as Hwf1 by by apply wf_alloc.
  unfold wf, set_tree. cbn [items lists].
  apply Forall_insert; [done|]. cbn [tree].
  pose proof (wf_sorted h1 l Hwf1) as Hs. split.
  - apply Forall_forall. intros p.
    rewrite (ReplaceOrInsert_elem (deref h1)) by done.
    intros [->|[Hp _]]; [|by eapply wf_allocated].
    unfold h1. simpl. rewrite length_app. simpl. lia.
  - by apply (ReplaceOrInsert_sorted (deref h1)).
Qed.

Lemma New_wf h : wf h → wf (New h).1.
Proof.
  unfold wf, New. simpl. intros Hwf. apply Forall_app. split; [done|].
  repeat constructor.
Qed.

Lemma New_tree h : tree_of (New h).1 (New h).2 = [].
Proof. unfold tree_of, New. simpl. by rewrite list_lookup_middle. Qed.

(** ** [Put] on a version, present or not *)

Lemma Put_lists_length h l v b :
  length (lists (Put h l v b).1) = length (lists h).
Proof. unfold Put, set_tree. simpl. by rewrite length_insert. Qed.

Lemma Put_fresh h l v b p :
  wf h → p ∈ tree_of h l → (Put h l v b).2 ≠ p.
Proof.
  intros Hwf Hp%(wf_allocated h l p Hwf). unfold Put. simpl. lia.
Qed.

Lemma Put_elem h l v b p :
  wf h → l < length (lists h) →
  p ∈ tree_of (Put h l v b).1 l
  ↔ p = (Put h l v b).2 ∨ p ∈ tree_of h l ∧ Ver h p ≠ v.
Proof.
  intros Hwf Hl. rewrite Put_tree_split by done.
  rewrite elem_of_app, elem_of_cons, !list_elem_of_filter.
  change (Put h l v b).2 with (length (items h)). split.
  - intros [[? ?]|[?|[? ?]]]; [right; split; [done|lia]|by left|].
    right; split; [done|lia].
  - intros [->|[Hx Hne]]; [by right; left|].
    destruct (Z.lt_total (Ver h p) v) as [?|[?|?]]; [by left|done|].
    by right; right.
Qed.

Lemma Put_find_new h l v b :
  wf h → l < length (lists h) →
  find (Put h l v b).1 l v Exact = Some (Put h l v b).2.
Proof.
  intros Hwf Hl. rewrite find_Exact.
  apply (Get_Some (deref (Put h l v b).1)).
  { apply (wf_sorted _ l). by apply Put_wf. }
  split; [apply Put_elem; auto|]. by rewrite Put_deref_new.
Qed.

Lemma Put_Len h l v b :
  wf h → l < length (lists h) →
  Len (Put h l v b).1 l
  = match find h l v Exact with
    | Some _ => Len h l
    | None => S (Len h l)
    end.
Proof.
  intros Hwf Hl. unfold Len, btree.Len, Put. cbn [fst].
  set (it := mkItem v b (Some l)).
  set (h1 := mkHeap (items h ++ [it]) (lists h)).
  rewrite tree_of_set_tree by done.
  change (tree_of h1 l) with (tree_of h l).
  rewrite ReplaceOrInsert_length.
  assert (wf h1) as Hwf1 by by apply wf_alloc.
  pose proof (wf_sorted h l Hwf) as Hs.
  pose proof (wf_sorted h1 l Hwf1) as Hs1.
  change (tree_of h1 l) with (tree_of h l) in Hs1.
  rewrite find_Exact.
  assert (deref h1 (length (items h)) = it) as Hit by apply deref_alloc_new.
  rewrite Hit.
  destruct (btree.Get (deref h1) Less (tree_of h l) it) as [p|] eqn:E1.
  - apply (Get_Some (deref h1)) in E1 as [Hp Hv]; [|done].
    unfold h1 in Hv. rewrite deref_alloc_old in Hv by by eapply wf_allocated.
    assert (btree.Get (deref h) Less (tree_of h l) (pivot v) = Some p) as ->;
      [|done].
    by apply (Get_Some (deref h)).
  - assert (btree.Get (deref h) Less (tree_of h l) (pivot v) = None) as ->;
      [|done].
    apply (Get_None (deref h)); [done|]. intros p Hp.
    apply (Get_None (deref h1)) with (p := p) in E1; [|done..].
    unfold h1 in E1. by rewrite deref_alloc_old in E1 by by eapply wf_allocated.
Qed.

(** [Put] on a version that is present. *)
Lemma Put_on_present h l v b e :
  wf h → find h l v Exact = Some e →
  let '(h', e') := Put h l v b in
  e' ≠ e
  ∧ Get h' l v Exact = Some e'
  ∧ deref h' e' = mkItem v b (Some l)
  ∧ (e ∉ tree_of h' l)
  ∧ deref h' e = deref h e
  ∧ Len h' l = Len h l
  ∧ ∀ p, p ∈ tree_of h' l ↔ p = e' ∨ p ∈ tree_of h l ∧ p ≠ e.
Proof.
  intros Hwf Hfind.
  pose proof (find_elem h l v Exact e Hwf Hfind) as He.
  pose proof (tree_of_elem_allocated h l e He) as Hl.
  pose proof (wf_sorted h l Hwf) as Hs.
  assert (Ver h e = v) as Hv by by apply find_Exact_spec in Hfind as [_ ?].
  pose proof (Put_fresh h l v b e Hwf He) as Hne.
  pose proof (Put_find_new h l v b Hwf Hl) as Hf.
  pose proof (Put_deref_new h l v b) as Hnew.
  pose proof (Put_deref_old h l v b e (wf_allocated h l e Hwf He)) as Hold.
  pose proof (Put_Len h l v b Hwf Hl) as HLen. rewrite Hfind in HLen.
  pose proof (Put_elem h l v b) as Hel.
  destruct (Put h l v b) as [h' e']. cbn [fst snd] in *.
  split_and!; [done..| |done|done|].
  - intros [->|[_ Hv']]%Hel; done.
  - intros p. rewrite Hel by done. split.
    + intros [->|[Hp Hpv]]; [by left|right]. split; [done|congruence].
    + intros [->|[Hp Hpe]]; [by left|right]. split; [done|].
      intros Hpv. apply Hpe.
      apply (sorted_same_version (deref h) (tree_of h l)); [done..|].
      fold (Ver h p) (Ver h e). congruence.
Qed.

(** ** Runs of [Put] *)

Lemma Puts_cons h l kv kvs :
  Puts h l (kv :: kvs) = Puts (Put h l kv.1 kv.2).1 l kvs.
Proof. done. Qed.

Lemma Puts_wf h l kvs : wf h → wf (Puts h l kvs).
Proof.
  revert h. induction kvs as [|kv kvs IH]; intros h Hwf; [done|].
  rewrite Puts_cons. by apply IH, Put_wf.
Qed.

(** The versions in the tree after [Put]: the one put and the ones that
    were there. *)
Lemma Put_vers h l v b x :
  wf h → l < length (lists h) →
  x ∈ vers (Put h l v b).1 (tree_of (Put h l v b).1 l)
  ↔ x = v ∨ x ∈ vers h (tree_of h l).
Proof.
  intros Hwf Hl. unfold vers. rewrite !list_elem_of_fmap. split.
  - intros (p & -> & [->|[Hp Hne]]%Put_elem); [| |done..].
    + left. by rewrite Put_deref_new.
    + right. exists p. split; [|done].
      by rewrite Put_deref_old by by eapply wf_allocated.
  - intros [->|(p & -> & Hp)].
    + exists (Put h l v b).2. split; [by rewrite Put_deref_new|].
      apply Put_elem; auto.
    + destruct (decide (Ver h p = v)) as [Hv|Hv].
      * exists (Put h l v b).2. split; [by rewrite Put_deref_new|].
        apply Put_elem; auto.
      * exists p. split.
        { by rewrite Put_deref_old by by eapply wf_allocated. }
        apply Put_elem; auto.
Qed.

Lemma Puts_vers h l kvs x :
  wf h → l < length (lists h) →
  x ∈ vers (Puts h l kvs) (tree_of (Puts h l kvs) l)
  ↔ x ∈ kvs.*1 ∨ x ∈ vers h (tree_of h l).
Proof.
  revert h. induction kvs as [|kv kvs IH]; intros h Hwf Hl.
  { simpl. rewrite elem_of_nil. tauto. }
  rewrite Puts_cons, IH; [|by apply Put_wf|by rewrite Put_lists_length].
  rewrite Put_vers by done. rewrite fmap_cons, elem_of_cons. tauto.
Qed.

(** ** Field updates *)

Lemma set_list__ver h i o p : ver (deref (set_list_ h i o) p) = ver (deref h p).
Proof.
  unfold set_list_, deref at 1. simpl.
  destruct (decide (i = p)) as [->|Hne].
  - destruct (decide (p < length (items h))).
    + by rewrite list_lookup_insert_eq.
    + by rewrite list_insert_ge by lia.
  - by rewrite list_lookup_insert_ne.
Qed.

Lemma set_list__val h i o p : val (deref (set_list_ h i o) p) = val (deref h p).
Proof.
  unfold set_list_, deref at 1. simpl.
  destruct (decide (i = p)) as [->|Hne].
  - destruct (decide (p < length (items h))).
    + by rewrite list_lookup_insert_eq.
    + by rewrite list_insert_ge by lia.
  - by rewrite list_lookup_insert_ne.
Qed.

Lemma set_list__same h i o :
  i < length (items h) → list_ (deref (set_list_ h i o) i) = o.
Proof.
  intros Hi. unfold set_list_, deref at 1. simpl.
  by rewrite list_lookup_insert_eq.
Qed.

Lemma set_list__other h i o p :
  i ≠ p → deref (set_list_ h i o) p = deref h p.
Proof.
  intros Hne. unfold set_list_, deref at 1. simpl.
  by rewrite list_lookup_insert_ne.
Qed.

Lemma wf_set_list_ h i o : wf h → wf (set_list_ h i o).
Proof.
  unfold wf. cbn [items lists set_list_]. rewrite length_insert.
  intros Hwf. eapply Forall_impl; [exact Hwf|].
  intros L [Hall Hs]. split; [done|].
  revert Hs. apply sorted_ext. intros x y _ _. unfold ver_lt.
  by rewrite !set_list__ver.
Qed.

Lemma set_val_ver h i b p : ver (deref (set_val h i b) p) = ver (deref h p).
Proof.
  unfold set_val, deref at 1. simpl.
  destruct (decide (i = p)) as [->|Hne].
  - destruct (decide (p < length (items h))).
    + by rewrite list_lookup_insert_eq.
    + by rewrite list_insert_ge by lia.
  - by rewrite list_lookup_insert_ne.
Qed.

(** ** The expunge loop *)

(** Deleting the items [ys] one after the other leaves the entries whose
    version is not the version of any of them. *)
Lemma expunge_iterate h l ys :
  wf h → l < length (lists h) →
  btree.iterate ys
    (λ v h',
       (true,
        set_tree h' l
          (btree.Delete (deref h') Less (tree_of h' l) (deref h' v)).1))
    h
  = set_tree h l (filter (λ p, Ver h p ∉ vers h ys) (tree_of h l)).
Proof.
  revert h. induction ys as [|y ys IH]; intros h Hwf Hl.
  { simpl. rewrite filter_all; [by rewrite set_tree_id|].
    apply Forall_forall. intros p _. apply not_elem_of_nil. }
  simpl. rewrite Delete_tree by done.
  set (t1 := filter (λ p, Ver h p ≠ ver (deref h y)) (tree_of h l)).
  rewrite IH.
  - rewrite set_tree_set_tree, tree_of_set_tree by done. f_equal.
    unfold t1. rewrite list_filter_filter. apply list_filter_iff.
    intros p.
    change ((Ver h p ∉ vers h ys) ∧ Ver h p ≠ ver (deref h y)
            ↔ Ver h p ∉ ver (deref h y) :: vers h ys).
    rewrite not_elem_of_cons. tauto.
  - by apply wf_set_tree_filter.
  - unfold set_tree. simpl. by rewrite length_insert.
Qed.

(** On a tree that is one leaf [Exp] returns the entry resolved and
    leaves the entries above it. *)
Lemma Exp_one_leaf h l v meth i :
  wf h → find h l v meth = Some i → btree.one_leaf (tree_of h l) = true →
  Exp h l v meth
  = Returns
      (set_tree h l (filter (λ p, (Ver h i < Ver h p)%Z) (tree_of h l)),
       Some i).
Proof.
  intros Hwf Hfind Hleaf. unfold Exp. rewrite Hfind, Hleaf. do 2 f_equal.
  pose proof (find_elem h l v meth i Hwf Hfind) as Hi.
  unfold btree.DescendLessOrEqual.
  rewrite expunge_iterate by by eauto using tree_of_elem_allocated.
  f_equal. apply filter_ext_elem. intros p Hp.
  set (ys := reverse _).
  assert (∀ y, y ∈ ys ↔ y ∈ tree_of h l ∧ (Ver h y <= Ver h i)%Z) as Hys.
  { intros y. unfold ys.
    rewrite elem_of_reverse, list_elem_of_filter, Less_lt.
    unfold Ver. split; intros [? ?]; split; try done; lia. }
  split.
  - intros Hnot. destruct (Z.lt_ge_cases (Ver h i) (Ver h p)) as [|Hle]; [done|].
    destruct Hnot. apply (list_elem_of_fmap_2 (λ p, ver (deref h p))).
    by apply Hys.
  - intros Hlt (y & Hv & [_ Hy]%Hys)%list_elem_of_fmap.
    unfold Ver in *. lia.
Qed.

(** Whenever [Exp] returns, it returns what the seek resolved and has
    written to no item: in particular it leaves every [list] field as
    it was. *)
Lemma Exp_items h l v meth h' r :
  Exp h l v meth = Returns (h', r) →
  r = find h l v meth ∧ items h' = items h.
Proof.
  unfold Exp. destruct (find h l v meth) as [i|]; [|by intros [= <- <-]].
  destruct (btree.one_leaf (tree_of h l)); [|done]. intros [= <- <-].
  split; [done|]. unfold btree.DescendLessOrEqual. by apply iterate_items.
Qed.

(** ** Walks *)

(** A visitor that never asks to stop is shown the whole tree. *)
Lemma Walk_full h l :
  Walk h l (λ i log, (false, log ++ [i])) [] = tree_of h l.
Proof.
  unfold Walk, btree.Ascend.
  assert (∀ xs log0,
    btree.iterate xs
      (λ (i : ptr) (s : list ptr),
         let '(r, s') := (false, s ++ [i]) in (negb r, s')) log0
    = log0 ++ xs) as Hrun.
  { induction xs as [|x xs IH]; intros log0; simpl.
    - by rewrite app_nil_r.
    - by rewrite IH, <- app_assoc. }
  apply (Hrun _ []).
Qed.

(** ** Every call keeps the store well formed *)

Lemma Clr_wf h l : wf h → wf (Clr h l).
Proof. intros Hwf. apply wf_set_tree; [done|constructor..]. Qed.

Lemma Del_wf h l v meth : wf h → wf (Del h l v meth).1.
Proof.
  intros Hwf. unfold Del. destruct (find h l v meth) as [i|]; [|done].
  cbn [fst]. apply wf_set_list_. rewrite Delete_tree by done.
  by apply wf_set_tree_filter.
Qed.

Lemma Item_Set_wf h i b : wf h → wf (Item_Set h i b).1.
Proof.
  unfold wf, Item_Set. cbn [fst items lists set_val]. rewrite length_insert.
  intros Hwf. eapply Forall_impl; [exact Hwf|].
  intros L [Hall Hs]. split; [done|].
  revert Hs. apply sorted_ext. intros x y _ _. unfold ver_lt.
  by rewrite !set_val_ver.
Qed.

Lemma Item_Del_wf h i : wf h → wf (Item_Del h i).1.
Proof.
  intros Hwf. unfold Item_Del. destruct (list_ (deref h i)) as [l|]; [|done].
  cbn [fst]. apply wf_set_list_. rewrite Delete_tree by done.
  by apply wf_set_tree_filter.
Qed.

Lemma run_call_wf h c : wf h → wf (run_call h c).
Proof.
  intros Hwf. destruct c; cbn [run_call].
  - by apply New_wf.
  - by apply Clr_wf.
  - by apply Put_wf.
  - by apply Del_wf.
  - by apply Item_Set_wf.
  - by apply Item_Del_wf.
Qed.

(** Whatever the program, the store it leaves is well formed. *)
Lemma run_wf cs : wf (run cs).
Proof.
  unfold run. induction cs as [|c cs IH] using rev_ind.
  - by constructor.
  - rewrite foldl_snoc. by apply run_call_wf.
Qed.

Example ex_heap_run :
  ex_heap
  = run [CallNew; CallPut 0 20 [x02]; CallPut 0 10 [x01]; CallPut 0 30 [x03]].
Proof. reflexivity. Qed.

Lemma wf_ex_heap : wf ex_heap.
Proof. apply (bool_decide_unpack _). by vm_compute. Qed.

(** * The claims *)

(** Claim C1.  Seek correctness of [find], on every well-formed store,
    list and version [v]: [Exact] resolves to the entry whose version is
    [v]; [Prev] to the entry with the greatest version strictly below
    [v]; [Next] to the entry with the smallest version strictly above
    [v]; [Upto] to the entry with the greatest version at most [v]; each
    mode yields nil exactly when the list holds no such entry. *)
Theorem find_seek_correct (h : Heap) (l : lref) (v : Z) :
  wf h →
  (∀ p, find h l v Exact = Some p ↔ p ∈ tree_of h l ∧ Ver h p = v)
  ∧ (find h l v Exact = None ↔ ∀ q, q ∈ tree_of h l → Ver h q ≠ v)
  ∧ match find h l v Prev with
    | Some p =>
        p ∈ tree_of h l ∧ (Ver h p < v)%Z
        ∧ ∀ q, q ∈ tree_of h l → (Ver h q < v)%Z → (Ver h q <= Ver h p)%Z
    | None => ∀ q, q ∈ tree_of h l → ¬ (Ver h q < v)%Z
    end
  ∧ match find h l v Next with
    | Some p =>
        p ∈ tree_of h l ∧ (v < Ver h p)%Z
        ∧ ∀ q, q ∈ tree_of h l → (v < Ver h q)%Z → (Ver h p <= Ver h q)%Z
    | None => ∀ q, q ∈ tree_of h l → ¬ (v < Ver h q)%Z
    end
  ∧ match find h l v Upto with
    | Some p =>
        p ∈ tree_of h l ∧ (Ver h p <= v)%Z
        ∧ ∀ q, q ∈ tree_of h l → (Ver h q <= v)%Z → (Ver h q <= Ver h p)%Z
    | None => ∀ q, q ∈ tree_of h l → ¬ (Ver h q <= v)%Z
    end.
Proof.
  intros Hwf. split_and!.
  - intros p. by apply find_Exact_spec.
  - by apply find_Exact_None.
  - by apply find_Prev_spec.
  - by apply find_Next_spec.
  - by apply find_Upto_spec.
Qed.

Lemma find_seek_correct_witness :
  wf ex_heap
  ∧ find ex_heap 0 20 Exact = Some 0
  ∧ find ex_heap 0 15 Prev = Some 1
  ∧ find ex_heap 0 15 Next = Some 0
  ∧ find ex_heap 0 20 Prev = Some 1
  ∧ find ex_heap 0 20 Upto = Some 0
  ∧ (∀ q, q ∈ tree_of ex_heap 0 → (Ver ex_heap q < 20)%Z →
       (Ver ex_heap q <= Ver ex_heap 1%nat)%Z).
Proof.
  assert (wf ex_heap) as Hwf by (apply (bool_decide_unpack _); by vm_compute).
  split_and!; [done|reflexivity..|].
  pose proof (find_seek_correct ex_heap 0 20 Hwf) as (_ & _ & HP & _ & _).
  change (find ex_heap 0 20 Prev) with (Some 1) in HP. apply HP.
Defined.

(** Claim C3.  [Nearest] is [Upto] when that finds an entry and [Next]
    otherwise, and nothing else: on a well-formed store it therefore
    returns the greatest entry at or below [v] whenever there is one,
    whatever lies above [v], and the result of [Next] only when every
    entry lies above [v]. *)
Theorem find_Nearest_Upto_else_Next (h : Heap) (l : lref) (v : Z) :
  find h l v Nearest
  = match find h l v Upto with
    | Some i => Some i
    | None => find h l v Next
    end
  ∧ (wf h →
     (∀ q, q ∈ tree_of h l → (Ver h q <= v)%Z →
        ∃ p, find h l v Nearest = Some p ∧ p ∈ tree_of h l
             ∧ (Ver h q <= Ver h p <= v)%Z)
     ∧ ((∀ q, q ∈ tree_of h l → (v < Ver h q)%Z) →
        find h l v Nearest = find h l v Next)).
Proof.
  split; [done|]. intros Hwf.
  pose proof (find_Upto_spec h l v Hwf) as HU.
  rewrite find_Nearest.
  destruct (find h l v Upto) as [p|]; split.
  - intros q Hq Hle. destruct HU as (Hp & Hpv & Hmax).
    exists p. split_and!; [done..|by apply Hmax|done].
  - intros Habove. destruct HU as (Hp & Hpv & _).
    specialize (Habove p Hp). lia.
  - intros q Hq Hle. by destruct (HU q Hq).
  - done.
Qed.

Lemma find_Nearest_Upto_else_Next_witness :
  find ex_heap 0 25 Nearest = Some 0
  ∧ find ex_heap 0 5 Nearest = Some 1
  ∧ ∃ p, find ex_heap 0 25 Nearest = Some p ∧ p ∈ tree_of ex_heap 0
         ∧ (Ver ex_heap 1%nat <= Ver ex_heap p <= 25)%Z.
Proof.
  split_and!; [reflexivity..|].
  assert (wf ex_heap) as Hwf by (apply (bool_decide_unpack _); by vm_compute).
  destruct (find_Nearest_Upto_else_Next ex_heap 0 25) as [_ HN].
  destruct (HN Hwf) as [Hpast _].
  apply (Hpast 1); [|by vm_compute].
  apply list_elem_of_In. vm_compute. tauto.
Defined.

(** Claim C4, as the spec words it, fails: a visitor that always answers
    true is not shown every entry. *)
Lemma Walk_true_keeps_going_cex :
  ¬ (∀ (h : Heap) (l : lref) (fn : ptr → list ptr → bool * list ptr),
       wf h →
       (∀ i log, fn i log = (true, log ++ [i])) →
       Walk h l fn [] = tree_of h l).
Proof.
  intros Hclaim.
  specialize (Hclaim ex_heap 0 (λ i log, (true, log ++ [i]))).
  discriminate Hclaim; [|done].
  apply (bool_decide_unpack _). by vm_compute.
Qed.

(** Claim C4, amended.  [Walk] calls the visitor on the entries in
    ascending version order starting from the minimum, and stops the
    first time the visitor returns true: every call but the last one
    returned false, and when entries are left unvisited the last call
    returned true. *)
Theorem Walk_ascending_until_true {A : Type} (h : Heap) (l : lref)
    (fn : ptr → A → bool * A) (s : A) :
  wf h →
  ∃ (calls : list (ptr * bool)) (rest : list ptr),
    Walk h l (traced fn) (s, []) = (Walk h l fn s, calls)
    ∧ tree_of h l = calls.*1 ++ rest
    ∧ StronglySorted Z.lt (vers h (calls.*1))
    ∧ head (calls.*1) = (if calls is [] then None else Min h l)
    ∧ (∀ k p r, calls !! k = Some (p, r) → S k < length calls → r = false)
    ∧ (rest ≠ [] → ∃ p, last calls = Some (p, true)).
Proof.
  intros Hwf.
  destruct (iterate_traced fn (tree_of h l) s [])
    as (calls & rest & Hrun & Htree & Hfalse & Hlast).
  exists calls, rest. split_and!; [done..| | |done|done].
  - apply sorted_vers. apply (wf_sorted h l) in Hwf.
    rewrite Htree in Hwf. by apply StronglySorted_app_1_l in Hwf.
  - unfold Min, btree.Min. rewrite Htree. by destruct calls.
Qed.

Lemma Walk_ascending_until_true_witness :
  ∃ (calls : list (ptr * bool)) (rest : list ptr),
    Walk ex_heap 0 (traced (λ i n, (bool_decide (n = 1), S n))) (0, [])
    = (Walk ex_heap 0 (λ i n, (bool_decide (n = 1), S n)) 0, calls)
    ∧ tree_of ex_heap 0 = calls.*1 ++ rest
    ∧ StronglySorted Z.lt (vers ex_heap (calls.*1))
    ∧ head (calls.*1) = (if calls is [] then None else Min ex_heap 0)
    ∧ (∀ k p r, calls !! k = Some (p, r) → S k < length calls → r = false)
    ∧ (rest ≠ [] → ∃ p, last calls = Some (p, true)).
Proof.
  apply (Walk_ascending_until_true ex_heap 0).
  apply (bool_decide_unpack _). by vm_compute.
Defined.

Example Walk_visitor_examples :
  Walk ex_heap 0 (traced (λ i n, (bool_decide (n = 1), S n))) (0, [])
  = (2, [(1, false); (0, true)])
  ∧ Walk ex_heap 0 (traced (λ i (u : unit), (true, u))) (tt, [])
    = (tt, [(1, true)])
  ∧ Walk ex_heap 0 (traced (λ i (u : unit), (false, u))) (tt, [])
    = (tt, [(1, false); (0, false); (2, false)]).
Proof. by vm_compute. Qed.




(** Claim C6.  After [Put(v, a)] and then [Put(v, b)], [Get(v, Exact)]
    returns an entry, its value is [b], it is the only entry of the list
    with version [v], and [Len] is what it was after the first call. *)
Theorem Put_twice_single_entry (h : Heap) (l : lref) (v : Z)
    (a b : list byte) :
  wf h → l < length (lists h) →
  let '(h1, e1) := Put h l v a in
  let '(h2, e2) := Put h1 l v b in
  Get h2 l v Exact = Some e2
  ∧ Val h2 e2 = b
  ∧ (∀ p, p ∈ tree_of h2 l → Ver h2 p = v → p = e2)
  ∧ Len h2 l = Len h1 l.
Proof.
  intros Hwf Hl.
  pose proof (Put_wf h l v a Hwf) as Hwf1.
  pose proof (Put_lists_length h l v a) as Hl1.
  pose proof (Put_find_new h l v a Hwf Hl) as Hf1.
  destruct (Put h l v a) as [h1 e1]. cbn [fst snd] in *.
  assert (l < length (lists h1)) as Hl1' by lia.
  pose proof (Put_wf h1 l v b Hwf1) as Hwf2.
  pose proof (Put_find_new h1 l v b Hwf1 Hl1') as Hf2.
  pose proof (Put_Len h1 l v b Hwf1 Hl1') as HLen.
  pose proof (Put_deref_new h1 l v b) as Hnew.
  destruct (Put h1 l v b) as [h2 e2]. cbn [fst snd] in *.
  rewrite Hf1 in HLen. split_and!; [done| |  |done].
  - unfold Val. by rewrite Hnew.
  - intros p Hp Hv.
    apply (sorted_same_version (deref h2) (tree_of h2 l));
      [by apply wf_sorted|done|by eapply find_elem|].
    fold (Ver h2 p) (Ver h2 e2). rewrite Hv. unfold Ver. by rewrite Hnew.
Qed.

Lemma Put_twice_single_entry_witness :
  let '(h1, e1) := Put ex_heap 0 40 [x04] in
  let '(h2, e2) := Put h1 0 40 [x05] in
  Get h2 0 40 Exact = Some e2
  ∧ Val h2 e2 = [x05]
  ∧ (∀ p, p ∈ tree_of h2 0 → Ver h2 p = 40%Z → p = e2)
  ∧ Len h2 0 = Len h1 0.
Proof.
  apply (Put_twice_single_entry ex_heap 0 40 [x04] [x05]).
  - apply (bool_decide_unpack _). by vm_compute.
  - vm_compute. lia.
Defined.

(** Claim C7.  After any run of [Put] calls on a list made by [New], a
    walk that is never stopped visits all the entries stored, in strictly
    increasing version order; so no two stored entries have the same
    version, and the versions stored are the versions put.  A walk that
    is stopped visits a strictly increasing sequence as well. *)
Theorem Puts_Walk_strictly_ascending (h0 : Heap)
    (kvs : list (Z * list byte)) :
  wf h0 →
  let '(h1, l) := New h0 in
  let h := Puts h1 l kvs in
  let seen := Walk h l (λ i log, (false, log ++ [i])) [] in
  seen = tree_of h l
  ∧ StronglySorted Z.lt (vers h seen)
  ∧ NoDup (vers h seen)
  ∧ (∀ x, x ∈ vers h seen ↔ x ∈ kvs.*1)
  ∧ (∀ (A : Type) (fn : ptr → A → bool * A) (s : A),
       StronglySorted Z.lt
         (vers h ((Walk h l (traced fn) (s, [])).2.*1))).
Proof.
  intros Hwf0.
  pose proof (New_wf h0 Hwf0) as Hwf1.
  pose proof (New_tree h0) as Hnil.
  assert ((New h0).2 < length (lists (New h0).1)) as Hl.
  { unfold New. simpl. rewrite length_app. simpl. lia. }
  destruct (New h0) as [h1 l]. cbn [fst snd] in *.
  pose proof (Puts_wf h1 l kvs Hwf1) as Hwf.
  pose proof (wf_sorted _ l Hwf) as Hs.
  cbn zeta. rewrite Walk_full. split_and!.
  - done.
  - by apply sorted_vers.
  - by apply (sorted_NoDup_vers (deref (Puts h1 l kvs))).
  - intros x. rewrite Puts_vers by done. rewrite Hnil. simpl.
    rewrite elem_of_nil. tauto.
  - intros A fn s. unfold Walk, btree.Ascend.
    destruct (iterate_traced fn (tree_of (Puts h1 l kvs) l) s [])
      as (calls & rest & -> & Htree & _). cbn [snd app].
    apply sorted_vers. rewrite Htree in Hs.
    by apply StronglySorted_app_1_l in Hs.
Qed.

Lemma Puts_Walk_strictly_ascending_witness :
  let '(h1, l) := New ex_heap in
  let h := Puts h1 l [(7%Z, [x07]); (3%Z, [x03]); (7%Z, [x08]); (5%Z, [])] in
  let seen := Walk h l (λ i log, (false, log ++ [i])) [] in
  seen = tree_of h l
  ∧ StronglySorted Z.lt (vers h seen)
  ∧ NoDup (vers h seen)
  ∧ (∀ x, x ∈ vers h seen
          ↔ x ∈ [(7%Z, [x07]); (3%Z, [x03]); (7%Z, [x08]); (5%Z, [])].*1)
  ∧ (∀ (A : Type) (fn : ptr → A → bool * A) (s : A),
       StronglySorted Z.lt
         (vers h ((Walk h l (traced fn) (s, [])).2.*1))).
Proof.
  apply (Puts_Walk_strictly_ascending ex_heap).
  apply (bool_decide_unpack _). by vm_compute.
Defined.

Example Puts_example :
  let '(h1, l) := New ex_heap in
  let h := Puts h1 l [(7%Z, [x07]); (3%Z, [x03]); (7%Z, [x08]); (5%Z, [])] in
  vers h (Walk h l (λ i log, (false, log ++ [i])) []) = [3%Z; 5%Z; 7%Z]
  ∧ (Val h <$> Walk h l (λ i log, (false, log ++ [i])) [])
    = [[x03]; []; [x08]].
Proof. by vm_compute. Qed.

(** Claim C8, on the code.  [Exp] hands back the entry it resolved with
    the owner field still set, where [Del] on the same store clears it. *)
Theorem Exp_result_still_attached :
  let '(h0, l) := New empty_heap in
  let '(h1, e) := Put h0 l 10 [x01] in
  match Exp h1 l 10 Exact with
  | Returns (h2, r) =>
      r = Some e ∧ tree_of h2 l = [] ∧ list_ (deref h2 e) = Some l
      ∧ list_ (deref (Del h1 l 10 Exact).1 e) = None
  | Unsettled => False
  end.
Proof. by vm_compute. Qed.

(** Claim C9.  On an entry whose owner is absent, [Del] changes nothing
    in the store and returns the same entry, and [Prev] and [Next]
    return nil.  Hence [Del] can be called twice on any entry: after the
    first call the entry is detached, and the second call changes
    nothing and returns it again. *)
Theorem Item_detached_noop (h : Heap) (i : ptr) :
  (list_ (deref h i) = None →
     Item_Del h i = (h, i) ∧ Item_Prev h i = None ∧ Item_Next h i = None)
  ∧ (i < length (items h) →
     let '(h1, r) := Item_Del h i in
     r = i ∧ list_ (deref h1 i) = None ∧ Item_Del h1 r = (h1, i)).
Proof.
  split.
  - intros Hdet. unfold Item_Del, Item_Prev, Item_Next. by rewrite Hdet.
  - intros Hi. unfold Item_Del at 1.
    destruct (list_ (deref h i)) as [l|] eqn:E.
    + split; [done|].
      assert (list_ (deref (set_list_ (set_tree h l
                (btree.Delete (deref h) Less (tree_of h l) (deref h i)).1)
                i None) i) = None) as Hdet by by apply set_list__same.
      split; [done|]. unfold Item_Del. by rewrite Hdet.
    + split_and!; [done..|]. unfold Item_Del. by rewrite E.
Qed.

Lemma Item_detached_noop_witness :
  (let h := (Del ex_heap 0 20 Exact).1 in
   Item_Del h 0 = (h, 0) ∧ Item_Prev h 0 = None ∧ Item_Next h 0 = None)
  ∧ (let '(h1, r) := Item_Del ex_heap 0 in
     r = 0 ∧ list_ (deref h1 0) = None ∧ Item_Del h1 r = (h1, 0)).
Proof.
  split.
  - apply (Item_detached_noop (Del ex_heap 0 20 Exact).1 0). reflexivity.
  - apply (Item_detached_noop ex_heap 0). vm_compute. lia.
Defined.

(** Claim C10.  After [Put(v, a)] returned [e1] and [Put(v, b)] returned
    [e2], the list holds [e2] and not [e1]; [e1] still names the list as
    its owner and still has the value [a]; and [e1.Del()] takes [e2],
    the entry of that version, out of the list, returns [e1] and clears
    the owner of [e1] only. *)
Theorem replaced_item_Del_removes_live_entry (h : Heap) (l : lref) (v : Z)
    (a b : list byte) :
  wf h → l < length (lists h) →
  let '(h1, e1) := Put h l v a in
  let '(h2, e2) := Put h1 l v b in
  let '(h3, r) := Item_Del h2 e1 in
  e1 ≠ e2
  ∧ (e1 ∉ tree_of h2 l)
  ∧ Get h2 l v Exact = Some e2
  ∧ list_ (deref h2 e1) = Some l
  ∧ Val h2 e1 = a
  ∧ r = e1
  ∧ tree_of h3 l = filter (λ p, p ≠ e2) (tree_of h2 l)
  ∧ (e2 ∉ tree_of h3 l)
  ∧ Get h3 l v Exact = None
  ∧ list_ (deref h3 e1) = None
  ∧ list_ (deref h3 e2) = Some l.
Proof.
  intros Hwf Hl.
  pose proof (Put_wf h l v a Hwf) as Hwf1.
  pose proof (Put_lists_length h l v a) as Hl1.
  pose proof (Put_find_new h l v a Hwf Hl) as Hf1.
  pose proof (Put_deref_new h l v a) as Hnew1.
  assert ((Put h l v a).2 < length (items (Put h l v a).1)) as Hlt1.
  { unfold Put. simpl. rewrite length_app. simpl. lia. }
  destruct (Put h l v a) as [h1 e1]. cbn [fst snd] in *.
  assert (l < length (lists h1)) as Hl1' by lia.
  pose proof (Put_on_present h1 l v b e1 Hwf1 Hf1) as Hrep.
  pose proof (Put_wf h1 l v b Hwf1) as Hwf2.
  pose proof (Put_lists_length h1 l v b) as Hl2.
  assert (length (items h1) ≤ length (items (Put h1 l v b).1)) as Hlt2.
  { unfold Put. simpl. rewrite length_app. lia. }
  destruct (Put h1 l v b) as [h2 e2]. cbn [fst snd] in *.
  destruct Hrep as (Hne & Hget2 & Hnew2 & Hout & Hold & _ & _).
  rewrite Hnew1 in Hold.
  pose proof (find_elem h2 l v Exact e2 Hwf2 Hget2) as He2.
  pose proof (wf_sorted h2 l Hwf2) as Hs2.
  unfold Item_Del. rewrite Hold. cbn [list_].
  rewrite Delete_tree by done. cbn [ver].
  set (t3 := filter (λ p, Ver h2 p ≠ v) (tree_of h2 l)).
  assert (t3 = filter (λ p, p ≠ e2) (tree_of h2 l)) as Ht3.
  { apply filter_ext_elem. intros p Hp. split.
    - intros Hv ->. apply Hv. unfold Ver. by rewrite Hnew2.
    - intros Hp2 Hv. apply Hp2.
      apply (sorted_same_version (deref h2) (tree_of h2 l)); [done..|].
      fold (Ver h2 p). rewrite Hv. by rewrite Hnew2. }
  assert (tree_of (set_list_ (set_tree h2 l t3) e1 None) l = t3) as Htree.
  { change (tree_of (set_tree h2 l t3) l = t3).
    apply tree_of_set_tree. lia. }
  split_and!.
  - by intros ->.
  - done.
  - done.
  - done.
  - unfold Val. by rewrite Hold.
  - done.
  - by rewrite Htree.
  - rewrite Htree, Ht3. by intros [? _]%list_elem_of_filter.
  - unfold Get. rewrite find_Exact.
    apply (Get_None (deref (set_list_ (set_tree h2 l t3) e1 None))).
    { apply (wf_sorted _ l), wf_set_list_. by apply wf_set_tree_filter. }
    rewrite Htree. intros p [Hv _]%list_elem_of_filter.
    by rewrite set_list__ver.
  - apply set_list__same. simpl. lia.
  - rewrite set_list__other by done. change (list_ (deref h2 e2) = Some l).
    by rewrite Hnew2.
Qed.

Lemma replaced_item_Del_removes_live_entry_witness :
  let '(h1, e1) := Put ex_heap 0 40 [x04] in
  let '(h2, e2) := Put h1 0 40 [x05] in
  let '(h3, r) := Item_Del h2 e1 in
  e1 ≠ e2
  ∧ (e1 ∉ tree_of h2 0)
  ∧ Get h2 0 40 Exact = Some e2
  ∧ list_ (deref h2 e1) = Some 0
  ∧ Val h2 e1 = [x04]
  ∧ r = e1
  ∧ tree_of h3 0 = filter (λ p, p ≠ e2) (tree_of h2 0)
  ∧ (e2 ∉ tree_of h3 0)
  ∧ Get h3 0 40 Exact = None
  ∧ list_ (deref h3 e1) = None
  ∧ list_ (deref h3 e2) = Some 0.
Proof.
  apply (replaced_item_Del_removes_live_entry ex_heap 0 40 [x04] [x05]).
  - apply (bool_decide_unpack _). by vm_compute.
  - vm_compute. lia.
Defined.

(** * Further properties of the methods *)

(** ** Helpers *)

Lemma find_empty h l v what : tree_of h l = [] → find h l v what = None.
Proof.
  intros Ht. destruct what; unfold find, find_at, btree.DescendLessOrEqual,
    btree.AscendGreaterOrEqual; by rewrite Ht.
Qed.

(** [Get] of the tree looks at versions only. *)
Lemma Get_ext (d d' : ptr → Item) (t : list ptr) (k : Item) :
  (∀ p, p ∈ t → ver (d' p) = ver (d p)) →
  btree.Get d' Less t k = btree.Get d Less t k.
Proof.
  induction t as [|x t IH]; intros Hv; [done|]. simpl.
  rewrite IH by (intros p Hp; apply Hv; by right).
  unfold Less. by rewrite (Hv x) by by left.
Qed.

(** So does [find]: two stores that agree on a tree and on the versions
    of its items give the same answers. *)
Lemma find_ext h h' l v what :
  tree_of h' l = tree_of h l →
  (∀ p, p ∈ tree_of h l → ver (deref h' p) = ver (deref h p)) →
  find h' l v what = find h l v what.
Proof.
  intros Ht Hv.
  assert (find h' l v Upto = find h l v Upto) as HU.
  { rewrite !find_Upto, Ht. f_equal. apply filter_ext_elem.
    intros p Hp. unfold Ver. by rewrite Hv. }
  assert (find h' l v Next = find h l v Next) as HN.
  { rewrite !find_Next, Ht. f_equal. apply filter_ext_elem.
    intros p Hp. unfold Ver. by rewrite Hv. }
  destruct what.
  - rewrite !find_Exact, Ht. by apply Get_ext.
  - rewrite !find_Prev, Ht. f_equal. apply filter_ext_elem.
    intros p Hp. unfold Ver. by rewrite Hv.
  - done.
  - done.
  - by rewrite !find_Nearest, HU, HN.
Qed.

Lemma wf_NoDup h l : wf h → NoDup (tree_of h l).
Proof.
  intros Hs%(wf_sorted h l).
  by apply (sorted_NoDup_vers (deref h)), NoDup_fmap_1 in Hs.
Qed.

(** Deleting an item that is in the tree takes out that very item. *)
Lemma Delete_own h l i :
  wf h → i ∈ tree_of h l →
  (btree.Delete (deref h) Less (tree_of h l) (deref h i)).1
  = filter (λ p, p ≠ i) (tree_of h l).
Proof.
  intros Hwf Hi. rewrite Delete_tree by done.
  apply filter_ext_elem. intros p Hp. split.
  - by intros Hv ->.
  - intros Hne Hv. apply Hne.
    by apply (sorted_same_version (deref h) (tree_of h l));
      [apply wf_sorted|..].
Qed.

Lemma length_filter_ne (t : list ptr) (i : ptr) :
  NoDup t → i ∈ t → S (length (filter (λ p, p ≠ i) t)) = length t.
Proof.
  induction 1 as [|x t Hx Hnd IH]; [by intros ?%elem_of_nil|].
  intros [->|Hi]%elem_of_cons.
  - rewrite filter_cons_False by (intros ?; congruence).
    rewrite filter_all; [done|]. apply Forall_forall. by intros p Hp ->.
  - rewrite filter_cons_True by (by intros ->). simpl. by rewrite IH.
Qed.

Lemma find_own h l i :
  wf h → i ∈ tree_of h l → find h l (Ver h i) Exact = Some i.
Proof. intros Hwf Hi. by apply find_Exact_spec. Qed.

(** The first item of an ascending tree is its smallest, the last one
    its greatest. *)
Lemma Min_smallest h l m :
  wf h → Min h l = Some m →
  m ∈ tree_of h l ∧ ∀ q, q ∈ tree_of h l → (Ver h m <= Ver h q)%Z.
Proof.
  intros Hs%(wf_sorted h l). unfold Min, btree.Min.
  destruct (head (tree_of h l)) as [m'|] eqn:E; [|done]. intros [= ->].
  apply head_Some in E as [t' Ht']. rewrite Ht' in Hs |- *.
  apply StronglySorted_cons in Hs as [Hall _]. rewrite Forall_forall in Hall.
  split; [by left|]. intros q [->|Hq]%elem_of_cons; [done|].
  specialize (Hall q Hq). unfold ver_lt, Ver in *. lia.
Qed.

Lemma Max_greatest h l m :
  wf h → Max h l = Some m →
  m ∈ tree_of h l ∧ ∀ q, q ∈ tree_of h l → (Ver h q <= Ver h m)%Z.
Proof.
  intros Hs%(wf_sorted h l). unfold Max, btree.Max.
  destruct (last (tree_of h l)) as [m'|] eqn:E; [|done]. intros [= ->].
  apply last_Some in E as [t' Ht']. rewrite Ht' in Hs |- *.
  split; [apply elem_of_app; right; by left|].
  intros q [Hq| ->%list_elem_of_singleton]%elem_of_app; [|done].
  apply Z.lt_le_incl.
  apply (StronglySorted_app_1_elem_of _ _ _ q m Hs); [done|by left].
Qed.

Lemma Min_None h l : Min h l = None ↔ tree_of h l = [].
Proof.
  unfold Min, btree.Min. destruct (tree_of h l); simpl; split; done.
Qed.

Lemma Max_None h l : Max h l = None ↔ tree_of h l = [].
Proof.
  unfold Max, btree.Max. rewrite <- last_None.
  destruct (last (tree_of h l)); split; done.
Qed.

(** ** [New] and [Clr] *)

(** Property X1.  The list [New] returns is a new one and is empty:
    [Len] is 0, [Min], [Max] and [Get] in every mode return nil; no item
    and no other list is touched. *)
Theorem New_list_is_empty (h : Heap) :
  let '(h1, l) := New h in
  l = length (lists h)
  ∧ Len h1 l = 0 ∧ Min h1 l = None ∧ Max h1 l = None
  ∧ (∀ v meth, Get h1 l v meth = None)
  ∧ items h1 = items h
  ∧ ∀ l', l' < length (lists h) → tree_of h1 l' = tree_of h l'.
Proof.
  pose proof (New_tree h) as Ht. unfold New in *. cbn [fst snd] in *.
  split_and!; [done|..].
  - unfold Len. by rewrite Ht.
  - by apply Min_None.
  - by apply Max_None.
  - intros v meth. by apply find_empty.
  - done.
  - intros l' Hl'. unfold tree_of. simpl. by rewrite lookup_app_l.
Qed.

(** Property X2.  [Clr] empties the list and nothing else: [Len] is 0,
    [Min], [Max] and [Get] return nil, the other lists are as they were,
    and no item is written, so an entry obtained earlier still names the
    list as its owner.  On such an entry [Prev] and [Next] then return
    nil, and [Del] finds nothing to remove and clears the owner. *)
Theorem Clr_empties_without_detaching (h : Heap) (l : lref) :
  l < length (lists h) →
  let h' := Clr h l in
  Len h' l = 0 ∧ Min h' l = None ∧ Max h' l = None
  ∧ (∀ v meth, Get h' l v meth = None)
  ∧ items h' = items h
  ∧ (∀ l', l ≠ l' → tree_of h' l' = tree_of h l')
  ∧ ∀ i, i < length (items h) → list_ (deref h i) = Some l →
      list_ (deref h' i) = Some l
      ∧ Item_Prev h' i = None ∧ Item_Next h' i = None
      ∧ let '(h'', r) := Item_Del h' i in
        r = i ∧ tree_of h'' l = [] ∧ list_ (deref h'' i) = None.
Proof.
  intros Hl. cbn zeta.
  assert (tree_of (Clr h l) l = []) as Ht by by apply tree_of_set_tree.
  split_and!.
  - unfold Len. by rewrite Ht.
  - by apply Min_None.
  - by apply Max_None.
  - intros v meth. by apply find_empty.
  - done.
  - intros l' Hl'. by apply tree_of_set_tree_ne.
  - intros i Hi Hown.
    change (deref (Clr h l) i) with (deref h i).
    unfold Item_Prev, Item_Next, Item_Del.
    change (deref (Clr h l) i) with (deref h i). rewrite Hown.
    split_and!; [done|by apply find_empty..| | |].
    + done.
    + rewrite Ht. simpl.
      change (tree_of (set_tree (Clr h l) l []) l = []).
      apply tree_of_set_tree. unfold Clr, set_tree. simpl.
      by rewrite length_insert.
    + by apply set_list__same.
Qed.

Lemma Clr_empties_without_detaching_witness :
  let h' := Clr ex_heap 0 in
  Len h' 0 = 0 ∧ Min h' 0 = None ∧ Max h' 0 = None
  ∧ (∀ v meth, Get h' 0 v meth = None)
  ∧ items h' = items ex_heap
  ∧ (∀ l', 0 ≠ l' → tree_of h' l' = tree_of ex_heap l')
  ∧ ∀ i, i < length (items ex_heap) → list_ (deref ex_heap i) = Some 0 →
      list_ (deref h' i) = Some 0
      ∧ Item_Prev h' i = None ∧ Item_Next h' i = None
      ∧ let '(h'', r) := Item_Del h' i in
        r = i ∧ tree_of h'' 0 = [] ∧ list_ (deref h'' i) = None.
Proof. apply (Clr_empties_without_detaching ex_heap 0). vm_compute. lia. Defined.

(** ** [Del] of the list and of the item *)

(** Property X3.  When the seek resolves an entry [i], [Del] returns
    [i], takes exactly [i] out of the tree, so that [Len] drops by one
    and [Get] no longer finds its version, and clears the owner of [i],
    whose version and value stay; no other item and no other list is
    touched.  When the seek resolves nothing, [Del] returns nil and the
    store is unchanged. *)
Theorem Del_removes_resolved (h : Heap) (l : lref) (v : Z) (meth : Find) :
  wf h →
  match find h l v meth with
  | Some i =>
      let '(h', r) := Del h l v meth in
      r = Some i
      ∧ tree_of h' l = filter (λ p, p ≠ i) (tree_of h l)
      ∧ S (Len h' l) = Len h l
      ∧ Get h' l (Ver h i) Exact = None
      ∧ list_ (deref h' i) = None
      ∧ Ver h' i = Ver h i ∧ Val h' i = Val h i
      ∧ (∀ p, p ≠ i → deref h' p = deref h p)
      ∧ (∀ l', l ≠ l' → tree_of h' l' = tree_of h l')
  | None => Del h l v meth = (h, None)
  end.
Proof.
  intros Hwf. unfold Del. destruct (find h l v meth) as [i|] eqn:Hfind; [|done].
  pose proof (find_elem h l v meth i Hwf Hfind) as Hi.
  pose proof (tree_of_elem_allocated h l i Hi) as Hl.
  rewrite Delete_own by done.
  set (t' := filter (λ p, p ≠ i) (tree_of h l)).
  set (h' := set_list_ (set_tree h l t') i None).
  assert (tree_of h' l = t') as Ht by by apply tree_of_set_tree.
  assert (wf h') as Hwf' by by apply wf_set_list_, wf_set_tree_filter.
  split_and!.
  - done.
  - done.
  - unfold Len, btree.Len. rewrite Ht.
    by apply length_filter_ne; [apply wf_NoDup|].
  - apply find_Exact_None; [done|]. rewrite Ht.
    intros q [Hne Hq]%list_elem_of_filter Hv. apply Hne.
    apply (sorted_same_version (deref h) (tree_of h l));
      [by apply wf_sorted|done..|].
    unfold Ver, h' in Hv. by rewrite set_list__ver in Hv.
  - apply set_list__same. exact (wf_allocated h l i Hwf Hi).
  - apply set_list__ver.
  - apply set_list__val.
  - intros p Hp. unfold h'. by rewrite set_list__other by congruence.
  - intros l' Hl'. by apply tree_of_set_tree_ne.
Qed.

Lemma Del_removes_resolved_witness :
  let '(h', r) := Del ex_heap 0 25 Prev in
  r = Some 0
  ∧ tree_of h' 0 = filter (λ p, p ≠ 0) (tree_of ex_heap 0)
  ∧ S (Len h' 0) = Len ex_heap 0
  ∧ Get h' 0 (Ver ex_heap 0) Exact = None
  ∧ list_ (deref h' 0) = None
  ∧ Ver h' 0 = Ver ex_heap 0 ∧ Val h' 0 = Val ex_heap 0
  ∧ (∀ p, p ≠ 0 → deref h' p = deref ex_heap p)
  ∧ (∀ l', 0 ≠ l' → tree_of h' l' = tree_of ex_heap l').
Proof.
  apply (Del_removes_resolved ex_heap 0 25 Prev).
  apply (bool_decide_unpack _). by vm_compute.
Defined.

(** Property X4.  On an entry that its owner holds, [Item.Del] is
    [Del] of the owner at the entry's version with mode [Exact]: it
    takes exactly this entry out of the tree, [Len] drops by one, the
    owner field is cleared, and the entry is returned. *)
Theorem Item_Del_attached (h : Heap) (i : ptr) (l : lref) :
  wf h → list_ (deref h i) = Some l → i ∈ tree_of h l →
  let '(h', r) := Item_Del h i in
  r = i
  ∧ Del h l (Ver h i) Exact = (h', Some i)
  ∧ tree_of h' l = filter (λ p, p ≠ i) (tree_of h l)
  ∧ S (Len h' l) = Len h l
  ∧ list_ (deref h' i) = None
  ∧ Ver h' i = Ver h i ∧ Val h' i = Val h i.
Proof.
  intros Hwf Hown Hi. unfold Item_Del, Del.
  rewrite Hown, find_own by done.
  pose proof (tree_of_elem_allocated h l i Hi) as Hl.
  rewrite Delete_own by done.
  set (t' := filter (λ p, p ≠ i) (tree_of h l)).
  assert (tree_of (set_list_ (set_tree h l t') i None) l = t') as Ht
    by by apply tree_of_set_tree.
  split_and!; [done..| | | |].
  - unfold Len, btree.Len. rewrite Ht.
    by apply length_filter_ne; [apply wf_NoDup|].
  - apply set_list__same. exact (wf_allocated h l i Hwf Hi).
  - apply set_list__ver.
  - apply set_list__val.
Qed.

Lemma Item_Del_attached_witness :
  let '(h', r) := Item_Del ex_heap 1 in
  r = 1
  ∧ Del ex_heap 0 (Ver ex_heap 1) Exact = (h', Some 1)
  ∧ tree_of h' 0 = filter (λ p, p ≠ 1) (tree_of ex_heap 0)
  ∧ S (Len h' 0) = Len ex_heap 0
  ∧ list_ (deref h' 1) = None
  ∧ Ver h' 1 = Ver ex_heap 1 ∧ Val h' 1 = Val ex_heap 1.
Proof.
  apply (Item_Del_attached ex_heap 1 0).
  - apply (bool_decide_unpack _). by vm_compute.
  - reflexivity.
  - apply list_elem_of_In. vm_compute. tauto.
Defined.

(** ** [Put] on a version that is absent, and lookups around [Put] *)

(** An ascending tree without the version [v] is its part below [v]
    followed by its part above [v]. *)
Lemma sorted_split_at h (t : list ptr) (v : Z) :
  StronglySorted (ver_lt h) t → (∀ p, p ∈ t → Ver h p ≠ v) →
  filter (λ p, (Ver h p < v)%Z) t ++ filter (λ p, (v < Ver h p)%Z) t = t.
Proof.
  induction 1 as [|x t Hs IH Hx]; intros Hne; [done|].
  rewrite Forall_forall in Hx.
  assert (Ver h x ≠ v) as Hxv by (apply Hne; by left).
  destruct (Z.lt_total (Ver h x) v) as [Hlt|[?|Hgt]]; [|done|].
  - rewrite filter_cons_True, filter_cons_False by lia. simpl.
    rewrite IH; [done|]. intros p Hp. apply Hne. by right.
  - rewrite filter_none, filter_all; [done| |]; apply Forall_forall;
      intros p [->|Hp]%elem_of_cons; try lia;
      specialize (Hx p Hp); unfold ver_lt, Ver in *; lia.
Qed.

(** Property X5.  [Put] on a version the list does not hold adds one
    entry: the entry returned is newly allocated, carries the version,
    the value and this list as owner, is what [Get] in mode [Exact] then
    returns; [Len] grows by one, every entry that was in the list stays,
    and no item allocated before is written. *)
Theorem Put_absent_inserts (h : Heap) (l : lref) (v : Z) (b : list byte) :
  wf h → l < length (lists h) → find h l v Exact = None →
  let '(h', e) := Put h l v b in
  e = length (items h)
  ∧ (e ∉ tree_of h l)
  ∧ Get h' l v Exact = Some e
  ∧ deref h' e = mkItem v b (Some l)
  ∧ Len h' l = S (Len h l)
  ∧ (∀ p, p ∈ tree_of h' l ↔ p = e ∨ p ∈ tree_of h l)
  ∧ (∀ p, p < length (items h) → deref h' p = deref h p).
Proof.
  intros Hwf Hl Habs.
  pose proof (Put_find_new h l v b Hwf Hl) as Hf.
  pose proof (Put_deref_new h l v b) as Hnew.
  pose proof (Put_Len h l v b Hwf Hl) as HLen. rewrite Habs in HLen.
  pose proof (Put_elem h l v b) as Hel.
  pose proof (λ p, Put_deref_old h l v b p) as Hold.
  pose proof (λ p, Put_fresh h l v b p Hwf) as Hfresh.
  assert ((Put h l v b).2 = length (items h)) as He by done.
  destruct (Put h l v b) as [h' e]. cbn [fst snd] in *.
  split_and!; [done| |done..| |done].
  - intros Hin. by apply (Hfresh e).
  - intros p. rewrite Hel by done. split; [tauto|].
    intros [->|Hp]; [by left|right]. split; [done|].
    by apply (find_Exact_None h l v Hwf).
Qed.

Lemma Put_absent_inserts_witness :
  let '(h', e) := Put ex_heap 0 25 [x19] in
  e = length (items ex_heap)
  ∧ (e ∉ tree_of ex_heap 0)
  ∧ Get h' 0 25 Exact = Some e
  ∧ deref h' e = mkItem 25 [x19] (Some 0)
  ∧ Len h' 0 = S (Len ex_heap 0)
  ∧ (∀ p, p ∈ tree_of h' 0 ↔ p = e ∨ p ∈ tree_of ex_heap 0)
  ∧ (∀ p, p < length (items ex_heap) → deref h' p = deref ex_heap p).
Proof.
  apply (Put_absent_inserts ex_heap 0 25 [x19]).
  - apply (bool_decide_unpack _). by vm_compute.
  - vm_compute. lia.
  - reflexivity.
Defined.

(** Property X6.  [Put] at version [v] leaves the entries of the other
    versions alone: [Get] in mode [Exact] at any other version returns
    what it returned before, and every entry of another version is
    still in the list, unchanged. *)
Theorem Put_keeps_other_versions (h : Heap) (l : lref) (v : Z)
    (b : list byte) :
  wf h → l < length (lists h) →
  let h' := (Put h l v b).1 in
  (∀ v', v' ≠ v → Get h' l v' Exact = Get h l v' Exact)
  ∧ (∀ p, p ∈ tree_of h l → Ver h p ≠ v →
       p ∈ tree_of h' l ∧ deref h' p = deref h p).
Proof.
  intros Hwf Hl. cbn zeta.
  pose proof (Put_wf h l v b Hwf) as Hwf'. split.
  - intros v' Hv'. unfold Get. apply option_eq. intros p.
    rewrite !find_Exact_spec by done. rewrite Put_elem by done. split.
    + intros [[->|[Hp Hne]] Hv].
      * unfold Ver in Hv. rewrite Put_deref_new in Hv. by destruct Hv'.
      * split; [done|]. unfold Ver in *.
        by rewrite Put_deref_old in Hv by by eapply wf_allocated.
    + intros [Hp Hv]. split; [right; split; [done|congruence]|].
      unfold Ver in *. by rewrite Put_deref_old by by eapply wf_allocated.
  - intros p Hp Hne. split; [apply Put_elem; auto|].
    apply Put_deref_old. by eapply wf_allocated.
Qed.

Lemma Put_keeps_other_versions_witness :
  let h' := (Put ex_heap 0 20 [x09]).1 in
  (∀ v', v' ≠ 20%Z → Get h' 0 v' Exact = Get ex_heap 0 v' Exact)
  ∧ (∀ p, p ∈ tree_of ex_heap 0 → Ver ex_heap p ≠ 20%Z →
       p ∈ tree_of h' 0 ∧ deref h' p = deref ex_heap p).
Proof.
  apply (Put_keeps_other_versions ex_heap 0 20 [x09]).
  - apply (bool_decide_unpack _). by vm_compute.
  - vm_compute. lia.
Defined.

(** Property X7.  [Put] on an absent version followed by [Del] of that
    version in mode [Exact] gives the tree back: [Del] returns the entry
    just put, now detached, the tree of the list is what it was before
    the [Put], no earlier item is written, and [Get] answers every
    request as before. *)
Theorem Put_Del_round_trip (h : Heap) (l : lref) (v : Z) (b : list byte) :
  wf h → l < length (lists h) → find h l v Exact = None →
  let '(h1, e) := Put h l v b in
  let '(h2, r) := Del h1 l v Exact in
  r = Some e
  ∧ tree_of h2 l = tree_of h l
  ∧ list_ (deref h2 e) = None
  ∧ (∀ p, p < length (items h) → deref h2 p = deref h p)
  ∧ (∀ v' meth, Get h2 l v' meth = Get h l v' meth).
Proof.
  intros Hwf Hl Habs.
  pose proof (Put_wf h l v b Hwf) as Hwf1.
  pose proof (Put_find_new h l v b Hwf Hl) as Hf.
  pose proof (Put_tree_split h l v b Hwf Hl) as Hsplit.
  pose proof (Put_lists_length h l v b) as Hlen.
  pose proof (λ p, Put_deref_old h l v b p) as Hold.
  pose proof (λ p, Put_fresh h l v b p Hwf) as Hfresh.
  assert ((Put h l v b).2 = length (items h)) as He by done.
  assert (length (items (Put h l v b).1) = S (length (items h))) as Hits.
  { unfold Put. simpl. rewrite length_app. simpl. lia. }
  destruct (Put h l v b) as [h1 e]. cbn [fst snd] in *.
  pose proof (find_elem h1 l v Exact e Hwf1 Hf) as Hin.
  unfold Del. rewrite Hf, Delete_own by done.
  set (t2 := filter (λ p, p ≠ e) (tree_of h1 l)).
  assert (t2 = tree_of h l) as Ht2.
  { assert (∀ (Q : ptr → Prop) `{!∀ x, Decision (Q x)},
      filter (λ p, p ≠ e) (filter Q (tree_of h l)) = filter Q (tree_of h l))
      as Hkeep.
    { intros Q ?. apply filter_all, Forall_forall.
      intros p [_ Hp]%list_elem_of_filter ->. by apply (Hfresh e). }
    unfold t2.
    rewrite Hsplit, <- He, filter_app, filter_cons_False, !Hkeep by tauto.
    apply sorted_split_at; [by apply wf_sorted|].
    by apply (find_Exact_None h l v Hwf). }
  assert (tree_of (set_list_ (set_tree h1 l t2) e None) l = tree_of h l)
    as Htree.
  { rewrite <- Ht2. apply tree_of_set_tree. lia. }
  assert (∀ p, p < length (items h) →
    deref (set_list_ (set_tree h1 l t2) e None) p = deref h p) as Hframe.
  { intros p Hp. rewrite set_list__other by lia. by apply Hold. }
  split_and!; [done|done| |done|].
  - apply set_list__same. simpl. lia.
  - intros v' meth. unfold Get. apply find_ext; [done|].
    intros p Hp. rewrite Hframe; [done|]. by eapply wf_allocated.
Qed.

Lemma Put_Del_round_trip_witness :
  let '(h1, e) := Put ex_heap 0 25 [x19] in
  let '(h2, r) := Del h1 0 25 Exact in
  r = Some e
  ∧ tree_of h2 0 = tree_of ex_heap 0
  ∧ list_ (deref h2 e) = None
  ∧ (∀ p, p < length (items ex_heap) → deref h2 p = deref ex_heap p)
  ∧ (∀ v' meth, Get h2 0 v' meth = Get ex_heap 0 v' meth).
Proof.
  apply (Put_Del_round_trip ex_heap 0 25 [x19]).
  - apply (bool_decide_unpack _). by vm_compute.
  - vm_compute. lia.
  - reflexivity.
Defined.

(** ** [Min], [Max], [Len] and the seek modes *)

Lemma find_Upto_at h l v p :
  wf h → p ∈ tree_of h l → Ver h p = v → find h l v Upto = Some p.
Proof.
  intros Hwf Hp Hv. pose proof (find_Upto_spec h l v Hwf) as HU.
  destruct (find h l v Upto) as [u|].
  - destruct HU as (Hu & Hle & Hmax). f_equal.
    apply (sorted_same_version (deref h) (tree_of h l));
      [by apply wf_sorted|done..|].
    specialize (Hmax p Hp). unfold Ver in *. lia.
  - destruct (HU p Hp). lia.
Qed.

(** Property X8.  [Min] returns the entry with the smallest version and
    [Max] the one with the greatest, and nil exactly when the list is
    empty.  Nothing is found before [Min] or after [Max]: [Get] with
    mode [Prev] at the version of [Min], and with mode [Next] at the
    version of [Max], return nil. *)
Theorem Min_Max_extremal (h : Heap) (l : lref) :
  wf h →
  match Min h l with
  | Some m =>
      m ∈ tree_of h l
      ∧ (∀ q, q ∈ tree_of h l → (Ver h m <= Ver h q)%Z)
      ∧ Get h l (Ver h m) Prev = None
  | None => Len h l = 0
  end
  ∧ match Max h l with
    | Some m =>
        m ∈ tree_of h l
        ∧ (∀ q, q ∈ tree_of h l → (Ver h q <= Ver h m)%Z)
        ∧ Get h l (Ver h m) Next = None
    | None => Len h l = 0
    end.
Proof.
  intros Hwf. split.
  - destruct (Min h l) as [m|] eqn:E.
    + destruct (Min_smallest h l m Hwf E) as [Hm Hmin]. split_and!; [done..|].
      pose proof (find_Prev_spec h l (Ver h m) Hwf) as HP. unfold Get.
      destruct (find h l (Ver h m) Prev) as [p|]; [|done].
      destruct HP as (Hp & Hlt & _). specialize (Hmin p Hp). lia.
    + apply Min_None in E. unfold Len. by rewrite E.
  - destruct (Max h l) as [m|] eqn:E.
    + destruct (Max_greatest h l m Hwf E) as [Hm Hmax]. split_and!; [done..|].
      pose proof (find_Next_spec h l (Ver h m) Hwf) as HN. unfold Get.
      destruct (find h l (Ver h m) Next) as [p|]; [|done].
      destruct HN as (Hp & Hlt & _). specialize (Hmax p Hp). lia.
    + apply Max_None in E. unfold Len. by rewrite E.
Qed.

Lemma Min_Max_extremal_witness :
  match Min ex_heap 0 with
  | Some m =>
      m ∈ tree_of ex_heap 0
      ∧ (∀ q, q ∈ tree_of ex_heap 0 → (Ver ex_heap m <= Ver ex_heap q)%Z)
      ∧ Get ex_heap 0 (Ver ex_heap m) Prev = None
  | None => Len ex_heap 0 = 0
  end
  ∧ match Max ex_heap 0 with
    | Some m =>
        m ∈ tree_of ex_heap 0
        ∧ (∀ q, q ∈ tree_of ex_heap 0 → (Ver ex_heap q <= Ver ex_heap m)%Z)
        ∧ Get ex_heap 0 (Ver ex_heap m) Next = None
    | None => Len ex_heap 0 = 0
    end.
Proof.
  apply (Min_Max_extremal ex_heap 0).
  apply (bool_decide_unpack _). by vm_compute.
Defined.

(** Property X9.  After any run of [Put] calls on a list made by [New],
    [Len] is the number of distinct versions put, however often each
    one was put. *)
Theorem Len_Puts_counts_versions (h0 : Heap) (kvs : list (Z * list byte)) :
  wf h0 →
  let '(h1, l) := New h0 in
  Len (Puts h1 l kvs) l = length (remove_dups (kvs.*1)).
Proof.
  intros Hwf0.
  pose proof (New_wf h0 Hwf0) as Hwf1.
  pose proof (New_tree h0) as Hnil.
  assert ((New h0).2 < length (lists (New h0).1)) as Hl.
  { unfold New. simpl. rewrite length_app. simpl. lia. }
  destruct (New h0) as [h1 l]. cbn [fst snd] in *.
  pose proof (Puts_wf h1 l kvs Hwf1) as Hwf.
  unfold Len, btree.Len.
  rewrite <- (length_fmap (λ p, ver (deref (Puts h1 l kvs) p))).
  apply Permutation_length, NoDup_Permutation.
  - apply (sorted_NoDup_vers (deref (Puts h1 l kvs))). by apply wf_sorted.
  - apply NoDup_remove_dups.
  - intros x. rewrite elem_of_remove_dups.
    change (x ∈ vers (Puts h1 l kvs) (tree_of (Puts h1 l kvs) l)
            ↔ x ∈ kvs.*1).
    rewrite Puts_vers by done. rewrite Hnil. simpl.
    rewrite elem_of_nil. tauto.
Qed.

Lemma Len_Puts_counts_versions_witness :
  let '(h1, l) := New ex_heap in
  Len (Puts h1 l [(7%Z, [x07]); (3%Z, [x03]); (7%Z, [x08])]) l
  = length (remove_dups ([(7%Z, [x07]); (3%Z, [x03]); (7%Z, [x08])].*1)).
Proof.
  apply (Len_Puts_counts_versions ex_heap).
  apply (bool_decide_unpack _). by vm_compute.
Defined.

(** Property X10.  The seek modes agree with each other: [Upto] is
    [Exact] when the version is present and [Prev] otherwise; [Nearest]
    returns the entry of the version itself when it is present; and
    [Nearest] returns nil only on an empty list. *)
Theorem find_modes_agree (h : Heap) (l : lref) (v : Z) :
  wf h →
  find h l v Upto
  = match find h l v Exact with
    | Some p => Some p
    | None => find h l v Prev
    end
  ∧ (∀ p, find h l v Exact = Some p → find h l v Nearest = Some p)
  ∧ (find h l v Nearest = None ↔ tree_of h l = []).
Proof.
  intros Hwf.
  assert (∀ p, find h l v Exact = Some p → find h l v Upto = Some p) as HEU.
  { intros p [Hp Hv]%find_Exact_spec; [|done]. by apply find_Upto_at. }
  split_and!.
  - destruct (find h l v Exact) as [p|] eqn:E; [by apply HEU|].
    rewrite find_Upto, find_Prev. f_equal. apply filter_ext_elem.
    intros p Hp. pose proof (proj1 (find_Exact_None h l v Hwf) E p Hp). lia.
  - intros p Hp. rewrite find_Nearest. by rewrite (HEU p Hp).
  - split; [|by apply find_empty].
    rewrite find_Nearest. intros HN.
    pose proof (find_Upto_spec h l v Hwf) as HU.
    pose proof (find_Next_spec h l v Hwf) as HX.
    destruct (find h l v Upto); [done|]. rewrite HN in HX.
    destruct (tree_of h l) as [|x t]; [done|].
    specialize (HU x (list_elem_of_here _ _)).
    specialize (HX x (list_elem_of_here _ _)). lia.
Qed.

Lemma find_modes_agree_witness :
  find ex_heap 0 15 Upto
  = match find ex_heap 0 15 Exact with
    | Some p => Some p
    | None => find ex_heap 0 15 Prev
    end
  ∧ (∀ p, find ex_heap 0 15 Exact = Some p → find ex_heap 0 15 Nearest = Some p)
  ∧ (find ex_heap 0 15 Nearest = None ↔ tree_of ex_heap 0 = []).
Proof.
  apply (find_modes_agree ex_heap 0 15).
  apply (bool_decide_unpack _). by vm_compute.
Defined.

(** ** [Set] *)

Lemma set_val_other h i b p : i ≠ p → deref (set_val h i b) p = deref h p.
Proof.
  intros Hne. unfold set_val, deref at 1. simpl.
  by rewrite list_lookup_insert_ne.
Qed.

(** Property X11.  [Set] writes the value of its entry and nothing
    else: the entry keeps its version and its owner, the other items and
    every tree are as they were, and [Get] answers every request as
    before; the entry is returned and [Val] then reads the new value. *)
Theorem Item_Set_changes_value_only (h : Heap) (i : ptr) (b : list byte) :
  i < length (items h) →
  let '(h', r) := Item_Set h i b in
  r = i
  ∧ Val h' i = b
  ∧ Ver h' i = Ver h i
  ∧ list_ (deref h' i) = list_ (deref h i)
  ∧ (∀ p, p ≠ i → deref h' p = deref h p)
  ∧ lists h' = lists h
  ∧ (∀ l v meth, Get h' l v meth = Get h l v meth).
Proof.
  intros Hi. unfold Item_Set.
  assert (deref (set_val h i b) i
          = mkItem (ver (deref h i)) b (list_ (deref h i))) as Hnew.
  { unfold set_val, deref at 1. simpl. by rewrite list_lookup_insert_eq. }
  split_and!; [done|unfold Val, Ver; by rewrite Hnew..| |done|].
  - intros p Hp. by rewrite set_val_other by congruence.
  - intros l v meth. unfold Get. apply find_ext; [done|].
    intros p _. apply set_val_ver.
Qed.

Lemma Item_Set_changes_value_only_witness :
  let '(h', r) := Item_Set ex_heap 0 [x2a] in
  r = 0
  ∧ Val h' 0 = [x2a]
  ∧ Ver h' 0 = Ver ex_heap 0
  ∧ list_ (deref h' 0) = list_ (deref ex_heap 0)
  ∧ (∀ p, p ≠ 0 → deref h' p = deref ex_heap p)
  ∧ lists h' = lists ex_heap
  ∧ (∀ l v meth, Get h' l v meth = Get ex_heap l v meth).
Proof. apply (Item_Set_changes_value_only ex_heap 0 [x2a]). vm_compute. lia. Defined.

(** ** Several lists *)

(** Property X13.  A call of [Put], [Del] or [Clr] on one list changes
    nothing another list shows: the other list has the same tree, and
    [Get] on it answers every request as before. *)
Theorem lists_do_not_interfere (h : Heap) (l l' : lref) (c : Call) :
  wf h → l ≠ l' →
  (∃ v b, c = CallPut l v b) ∨ (∃ v meth, c = CallDel l v meth)
  ∨ c = CallClr l →
  tree_of (run_call h c) l' = tree_of h l'
  ∧ ∀ v' meth', Get (run_call h c) l' v' meth' = Get h l' v' meth'.
Proof.
  intros Hwf Hne Hc.
  assert (tree_of (run_call h c) l' = tree_of h l'
          ∧ ∀ p, p ∈ tree_of h l' →
              ver (deref (run_call h c) p) = ver (deref h p)) as [Ht Hv].
  { destruct Hc as [(v & b & ->)|[(v & meth & ->)| ->]]; cbn [run_call].
    - split; [by apply Put_tree_other|]. intros p Hp.
      rewrite Put_deref_old; [done|]. by eapply wf_allocated.
    - unfold Del. destruct (find h l v meth) as [i|]; [|done]. cbn [fst].
      split; [by apply tree_of_set_tree_ne|]. intros p _.
      by rewrite set_list__ver.
    - split; [by apply tree_of_set_tree_ne|done]. }
  split; [done|]. intros v' meth'. unfold Get. by apply find_ext.
Qed.

Lemma lists_do_not_interfere_witness :
  let h := (New ex_heap).1 in
  tree_of (run_call h (CallPut 1 20 [x63])) 0 = tree_of h 0
  ∧ ∀ v' meth',
      Get (run_call h (CallPut 1 20 [x63])) 0 v' meth' = Get h 0 v' meth'.
Proof.
  apply (lists_do_not_interfere (New ex_heap).1 1 0 (CallPut 1 20 [x63])).
  - apply (bool_decide_unpack _). by vm_compute.
  - lia.
  - left. by exists 20%Z, [x63].
Defined.

(** ** Owners *)

Lemma owned_alt h :
  owned h ↔ ∀ l p, p ∈ tree_of h l → list_ (deref h p) = Some l.
Proof.
  unfold owned. rewrite Forall_forall. split.
  - intros Hown l p. unfold tree_of.
    destruct (lists h !! l) as [L|] eqn:E; [|by intros ?%elem_of_nil].
    simpl. intros Hp.
    assert ((l, L) ∈ imap (λ l L, (l, L)) (lists h)) as Hin
      by by apply (elem_of_lookup_imap_2 (λ l L, (l, L))).
    specialize (Hown _ Hin). rewrite Forall_forall in Hown. by apply Hown.
  - intros Hown [l L] (l0 & L0 & [= -> ->] & E)%elem_of_lookup_imap_1.
    apply Forall_forall. intros p Hp. simpl in *. apply Hown.
    unfold tree_of. by rewrite E.
Qed.

(** What a tree can hold once one tree of the store is replaced. *)
Lemma tree_of_set_tree_cases h l t l' p :
  p ∈ tree_of (set_tree h l t) l' →
  l' = l ∧ p ∈ t ∨ l' ≠ l ∧ p ∈ tree_of h l'.
Proof.
  destruct (decide (l' = l)) as [->|Hne].
  - destruct (decide (l < length (lists h))) as [Hl|Hl].
    + rewrite tree_of_set_tree by done. by left.
    + rewrite tree_of_unallocated; [by intros ?%elem_of_nil|].
      unfold set_tree. simpl. rewrite length_insert. lia.
  - rewrite tree_of_set_tree_ne by done. by right.
Qed.

Lemma set_val_list_ h i b p :
  list_ (deref (set_val h i b) p) = list_ (deref h p).
Proof.
  unfold set_val, deref at 1. simpl.
  destruct (decide (i = p)) as [->|Hne].
  - destruct (decide (p < length (items h))).
    + by rewrite list_lookup_insert_eq.
    + by rewrite list_insert_ge by lia.
  - by rewrite list_lookup_insert_ne.
Qed.

Lemma New_owned h : owned h → owned (New h).1.
Proof.
  rewrite !owned_alt. intros Hown l p. unfold New, tree_of. simpl.
  destruct ((lists h ++ [mkList btree.New]) !! l) as [L|] eqn:E;
    [|by intros ?%elem_of_nil].
  apply lookup_snoc_Some in E as [[_ E]|[_ <-]]; [|by intros ?%elem_of_nil].
  intros Hp. apply Hown. unfold tree_of. by rewrite E.
Qed.

Lemma Clr_owned h l : owned h → owned (Clr h l).
Proof.
  rewrite !owned_alt. intros Hown l' p.
  intros [[_ ?%elem_of_nil]|[_ Hp]]%tree_of_set_tree_cases; [done|].
  by apply Hown.
Qed.

Lemma Put_owned h l v b : wf h → owned h → owned (Put h l v b).1.
Proof.
  rewrite !owned_alt. intros Hwf Hown l' p.
  pose proof (wf_alloc h (mkItem v b (Some l)) Hwf) as Hwf1.
  unfold Put. cbn [fst].
  set (h1 := mkHeap (items h ++ [mkItem v b (Some l)]) (lists h)).
  change (deref (set_tree h1 l _) p) with (deref h1 p).
  assert (∀ q l0, q ∈ tree_of h l0 → list_ (deref h1 q) = Some l0) as Hold.
  { intros q l0 Hq. unfold h1.
    rewrite deref_alloc_old by by eapply wf_allocated. by apply Hown. }
  intros [[-> Hp]|[_ Hp]]%tree_of_set_tree_cases; [|by apply Hold].
  apply (ReplaceOrInsert_elem (deref h1)) in Hp as [->|[Hp _]];
    [|by apply Hold|by apply (wf_sorted h1 l)].
  unfold h1. by rewrite deref_alloc_new.
Qed.

Lemma Del_owned h l v meth : wf h → owned h → owned (Del h l v meth).1.
Proof.
  intros Hwf Hown. unfold Del.
  destruct (find h l v meth) as [i|] eqn:E; [|done]. cbn [fst].
  pose proof (find_elem h l v meth i Hwf E) as Hi.
  rewrite Delete_own by done. revert Hown. rewrite !owned_alt.
  intros Hown l' p Hp.
  change (p ∈ tree_of (set_tree h l (filter (λ q, q ≠ i) (tree_of h l))) l')
    in Hp.
  apply tree_of_set_tree_cases in Hp
    as [[-> [Hne Hp]%list_elem_of_filter]|[Hl' Hp]].
  - rewrite set_list__other by congruence. by apply Hown.
  - rewrite set_list__other; [by apply Hown|].
    intros ->. apply Hl'.
    pose proof (Hown l p Hi) as H1. pose proof (Hown l' p Hp) as H2.
    congruence.
Qed.

Lemma Item_Set_owned h i b : owned h → owned (Item_Set h i b).1.
Proof.
  rewrite !owned_alt. intros Hown l p Hp. unfold Item_Set. cbn [fst].
  rewrite set_val_list_. by apply Hown.
Qed.

Lemma Item_Del_owned h i : wf h → owned h → owned (Item_Del h i).1.
Proof.
  intros Hwf Hown. unfold Item_Del.
  destruct (list_ (deref h i)) as [l|] eqn:E; [|done]. cbn [fst].
  rewrite Delete_tree by done. revert Hown. rewrite !owned_alt.
  intros Hown l' p Hp.
  change (p ∈ tree_of
            (set_tree h l (filter (λ q, Ver h q ≠ ver (deref h i))
                             (tree_of h l))) l') in Hp.
  apply tree_of_set_tree_cases in Hp
    as [[-> [Hne Hp]%list_elem_of_filter]|[Hl' Hp]].
  - rewrite set_list__other by (intros ->; by apply Hne). by apply Hown.
  - rewrite set_list__other; [by apply Hown|].
    intros ->. apply Hl'. pose proof (Hown l' p Hp) as H2. congruence.
Qed.

Lemma run_call_owned h c : wf h → owned h → owned (run_call h c).
Proof.
  intros Hwf Hown. destruct c; cbn [run_call].
  - by apply New_owned.
  - by apply Clr_owned.
  - by apply Put_owned.
  - by apply Del_owned.
  - by apply Item_Set_owned.
  - by apply Item_Del_owned.
Qed.

Lemma run_owned cs : owned (run cs).
Proof.
  unfold run. induction cs as [|c cs IH] using rev_ind.
  - by constructor.
  - rewrite foldl_snoc. apply run_call_owned; [apply run_wf|done].
Qed.

(** Property X14.  Whatever calls of [New], [Clr], [Put], [Del], [Set]
    and [Item.Del] were made, an entry that a list holds
    names that list as its owner, so no entry is held by two lists, and
    on an entry that a list holds [Item.Del] removes the entry itself. *)
Theorem run_keeps_owner (cs : list Call) (l : lref) (p : ptr) :
  p ∈ tree_of (run cs) l →
  list_ (deref (run cs) p) = Some l
  ∧ (∀ l', p ∈ tree_of (run cs) l' → l' = l)
  ∧ tree_of (Item_Del (run cs) p).1 l
    = filter (λ q, q ≠ p) (tree_of (run cs) l).
Proof.
  intros Hp. pose proof (run_wf cs) as Hwf.
  pose proof (proj1 (owned_alt _) (run_owned cs)) as Hown.
  pose proof (Hown l p Hp) as Hl. split_and!; [done| |].
  - intros l' Hp'. pose proof (Hown l' p Hp'). congruence.
  - unfold Item_Del. rewrite Hl. cbn [fst]. rewrite Delete_own by done.
    change (tree_of (set_tree (run cs) l
              (filter (λ q, q ≠ p) (tree_of (run cs) l))) l
            = filter (λ q, q ≠ p) (tree_of (run cs) l)).
    apply tree_of_set_tree. by eapply tree_of_elem_allocated.
Qed.

Lemma run_keeps_owner_witness :
  let cs := [CallNew; CallNew; CallPut 0 20 [x02]; CallPut 1 20 [x03];
             CallPut 0 10 [x01]; CallDel 0 20 Exact] in
  list_ (deref (run cs) 1) = Some 1
  ∧ (∀ l', 1 ∈ tree_of (run cs) l' → l' = 1)
  ∧ tree_of (Item_Del (run cs) 1).1 1
    = filter (λ q, q ≠ 1) (tree_of (run cs) 1).
Proof.
  apply (run_keeps_owner
           [CallNew; CallNew; CallPut 0 20 [x02]; CallPut 1 20 [x03];
            CallPut 0 10 [x01]; CallDel 0 20 Exact] 1 1).
  apply list_elem_of_In. vm_compute. tauto.
Defined.

(** ** [Prev] and [Next] of an entry *)

(** Property X15.  On an entry [i] that its owner holds, [Prev] returns
    the entry just before [i] in the list and [Next] the entry just
    after it: no entry has a version strictly in between, and stepping
    back from the result leads to [i] again.  [Prev] returns nil exactly
    on the entry [Min] returns, [Next] on the entry [Max] returns. *)
Theorem Item_Prev_Next_neighbours (h : Heap) (l : lref) (i : ptr) :
  wf h → owned h → i ∈ tree_of h l →
  match Item_Prev h i with
  | Some p =>
      p ∈ tree_of h l ∧ (Ver h p < Ver h i)%Z
      ∧ (∀ q, q ∈ tree_of h l → ¬ (Ver h p < Ver h q < Ver h i)%Z)
      ∧ Item_Next h p = Some i
  | None => Min h l = Some i
  end
  ∧ match Item_Next h i with
    | Some n =>
        n ∈ tree_of h l ∧ (Ver h i < Ver h n)%Z
        ∧ (∀ q, q ∈ tree_of h l → ¬ (Ver h i < Ver h q < Ver h n)%Z)
        ∧ Item_Prev h n = Some i
    | None => Max h l = Some i
    end.
Proof.
  intros Hwf Hown0 Hi. pose proof (proj1 (owned_alt h) Hown0) as Hown.
  pose proof (wf_sorted h l Hwf) as Hs.
  assert (∀ a b, a ∈ tree_of h l → b ∈ tree_of h l →
            Ver h a = Ver h b → a = b) as Huniq.
  { intros a b Ha Hb. by apply (sorted_same_version (deref h) (tree_of h l)). }
  unfold Item_Prev, Item_Next. rewrite (Hown l i Hi).
  fold (Ver h i). split.
  - pose proof (find_Prev_spec h l (Ver h i) Hwf) as HP.
    destruct (find h l (Ver h i) Prev) as [p|].
    + destruct HP as (Hp & Hlt & Hmax). split_and!; [done..| |].
      * intros q Hq [H1 H2]. specialize (Hmax q Hq H2). lia.
      * rewrite (Hown l p Hp). fold (Ver h p).
        pose proof (find_Next_spec h l (Ver h p) Hwf) as HN.
        destruct (find h l (Ver h p) Next) as [n|].
        -- destruct HN as (Hn & Hgt & Hmin). f_equal. apply Huniq; [done..|].
           specialize (Hmin i Hi Hlt).
           destruct (Z.lt_ge_cases (Ver h n) (Ver h i)) as [Hni|]; [|lia].
           specialize (Hmax n Hn Hni). lia.
        -- by destruct (HN i Hi).
    + destruct (Min h l) as [m|] eqn:E.
      * destruct (Min_smallest h l m Hwf E) as [Hm Hmin]. f_equal.
        apply Huniq; [done..|]. specialize (Hmin i Hi).
        specialize (HP m Hm). lia.
      * apply Min_None in E. rewrite E in Hi. by apply elem_of_nil in Hi.
  - pose proof (find_Next_spec h l (Ver h i) Hwf) as HN.
    destruct (find h l (Ver h i) Next) as [n|].
    + destruct HN as (Hn & Hgt & Hmin). split_and!; [done..| |].
      * intros q Hq [H1 H2]. specialize (Hmin q Hq H1). lia.
      * rewrite (Hown l n Hn). fold (Ver h n).
        pose proof (find_Prev_spec h l (Ver h n) Hwf) as HP.
        destruct (find h l (Ver h n) Prev) as [p|].
        -- destruct HP as (Hp & Hlt & Hmax). f_equal. apply Huniq; [done..|].
           specialize (Hmax i Hi Hgt).
           destruct (Z.lt_ge_cases (Ver h i) (Ver h p)) as [Hip|]; [|lia].
           specialize (Hmin p Hp Hip). lia.
        -- by destruct (HP i Hi).
    + destruct (Max h l) as [m|] eqn:E.
      * destruct (Max_greatest h l m Hwf E) as [Hm Hmax]. f_equal.
        apply Huniq; [done..|]. specialize (Hmax i Hi).
        specialize (HN m Hm). lia.
      * apply Max_None in E. rewrite E in Hi. by apply elem_of_nil in Hi.
Qed.

Lemma Item_Prev_Next_neighbours_witness :
  match Item_Prev ex_heap 0 with
  | Some p =>
      p ∈ tree_of ex_heap 0 ∧ (Ver ex_heap p < Ver ex_heap 0%nat)%Z
      ∧ (∀ q, q ∈ tree_of ex_heap 0 →
           ¬ (Ver ex_heap p < Ver ex_heap q < Ver ex_heap 0%nat)%Z)
      ∧ Item_Next ex_heap p = Some 0
  | None => Min ex_heap 0 = Some 0
  end
  ∧ match Item_Next ex_heap 0 with
    | Some n =>
        n ∈ tree_of ex_heap 0 ∧ (Ver ex_heap 0%nat < Ver ex_heap n)%Z
        ∧ (∀ q, q ∈ tree_of ex_heap 0 →
             ¬ (Ver ex_heap 0%nat < Ver ex_heap q < Ver ex_heap n)%Z)
        ∧ Item_Prev ex_heap n = Some 0
    | None => Max ex_heap 0 = Some 0
    end.
Proof.
  apply (Item_Prev_Next_neighbours ex_heap 0 0).
  - apply (bool_decide_unpack _). by vm_compute.
  - apply (bool_decide_unpack _). by vm_compute.
  - apply list_elem_of_In. vm_compute. tauto.
Defined.

(** ** The order, whatever the calls *)

(** Property X16.  Whatever calls of [New], [Clr], [Put], [Del], [Set]
    and [Item.Del] were made, every list holds allocated entries
    in strictly increasing version order, one per version, [Len] is
    their number, and a walk that is never stopped visits them all in
    that order. *)
Theorem run_keeps_order (cs : list Call) (l : lref) :
  let h := run cs in
  let seen := Walk h l (λ i log, (false, log ++ [i])) [] in
  seen = tree_of h l
  ∧ length seen = Len h l
  ∧ StronglySorted Z.lt (vers h seen)
  ∧ NoDup (vers h seen)
  ∧ Forall (λ p, p < length (items h)) seen.
Proof.
  cbn zeta. rewrite Walk_full. pose proof (run_wf cs) as Hwf.
  pose proof (wf_sorted _ l Hwf) as Hs. split_and!.
  - done.
  - done.
  - by apply sorted_vers.
  - by apply (sorted_NoDup_vers (deref (run cs))).
  - apply Forall_forall. intros p Hp. by eapply wf_allocated.
Qed.

(** Property X17.  Whatever calls of [New], [Clr], [Put], [Del], [Set]
    and [Item.Del] were made, what [Get], [Min] and [Max] return is an
    entry the list holds, attached to this very list,
    so that [Prev], [Next] and [Del] of the entry act on this list. *)
Theorem run_results_attached (cs : list Call) (l : lref) (p : ptr) :
  (∃ v meth, Get (run cs) l v meth = Some p)
  ∨ Min (run cs) l = Some p ∨ Max (run cs) l = Some p →
  p ∈ tree_of (run cs) l
  ∧ list_ (deref (run cs) p) = Some l
  ∧ Item_Prev (run cs) p = Get (run cs) l (Ver (run cs) p) Prev
  ∧ Item_Next (run cs) p = Get (run cs) l (Ver (run cs) p) Next
  ∧ Item_Del (run cs) p
    = ((Del (run cs) l (Ver (run cs) p) Exact).1, p).
Proof.
  intros Hres. pose proof (run_wf cs) as Hwf.
  pose proof (proj1 (owned_alt _) (run_owned cs)) as Hown.
  assert (p ∈ tree_of (run cs) l) as Hp.
  { destruct Hres as [(v & meth & Hg)|[Hm|Hm]].
    - by eapply find_elem.
    - by apply Min_smallest in Hm as [? _].
    - by apply Max_greatest in Hm as [? _]. }
  pose proof (Hown l p Hp) as Hl.
  unfold Item_Prev, Item_Next, Item_Del, Del, Get.
  rewrite Hl, find_own by done. by split_and!.
Qed.

Lemma run_results_attached_witness :
  let cs := [CallNew; CallPut 0 20 [x02]; CallPut 0 10 [x01];
             CallPut 0 20 [x03]] in
  2 ∈ tree_of (run cs) 0
  ∧ list_ (deref (run cs) 2) = Some 0
  ∧ Item_Prev (run cs) 2 = Get (run cs) 0 (Ver (run cs) 2) Prev
  ∧ Item_Next (run cs) 2 = Get (run cs) 0 (Ver (run cs) 2) Next
  ∧ Item_Del (run cs) 2 = ((Del (run cs) 0 (Ver (run cs) 2) Exact).1, 2).
Proof.
  apply (run_results_attached
           [CallNew; CallPut 0 20 [x02]; CallPut 0 10 [x01];
            CallPut 0 20 [x03]] 0 2).
  left. exists 25%Z, Upto. reflexivity.
Defined.
